(** * The junction-list external scanner of tree-sitter-tlaplus

    A shallow embedding of [src/scanner.cc]: the column stack of the open
    conjunction lists, its byte-level snapshot codec, and the token decision
    procedure [scan] with its two handlers.

    Conventions.
    - [int16_t], [uint8_t], [int32_t] and [size_t] values are integers in [Z];
      conversions that can wrap are written out ([to_uint8], [to_int16]).
    - [std::vector<column_index>] is a [list], first element = bottom of the
      stack, last element = [back()].
    - The serialization buffer is a [list] of bytes; a [memcpy] that leaves the
      buffer is reported as [OutOfBounds].
    - [assert] aborts; popping an empty vector and leaving [scan] without a
      [return] statement have no defined result in C++ and are kept apart as
      outcomes of their own. *)

From Stdlib Require Import ZArith List Bool Lia.
Import ListNotations.
Local Open Scope Z_scope.

(** ** Machine integers *)

Definition UINT8_MAX : Z := 255.

(** [static_cast<uint8_t>] and the reading of a [char] as [uint8_t]. *)
Definition to_uint8 (z : Z) : Z := z mod 256.

(** Conversion of an integer to [int16_t] (two's complement wrap-around). *)
Definition to_int16 (z : Z) : Z := (z + 32768) mod 65536 - 32768.

Definition int16_range (z : Z) : Prop := -32768 <= z <= 32767.

Definition byte_range (z : Z) : Prop := 0 <= z <= 255.

(** ** Data model *)

Inductive TokenType : Type :=
| INDENT
| NEWLINE
| DEDENT.

Definition TokenType_eqb (a b : TokenType) : bool :=
  match a, b with
  | INDENT, INDENT | NEWLINE, NEWLINE | DEDENT, DEDENT => true
  | _, _ => false
  end.

(** [using column_index = int16_t]. *)
Definition column_index : Type := Z.

Definition sizeof_column_index : Z := 2.

Record Scanner : Type := mkScanner {
  column_indices : list column_index
}.

(** [Scanner()] default-constructs the vector and calls [deserialize(NULL, 0)],
    which does nothing for a zero length. *)
Definition create : Scanner := {| column_indices := [] |}.

Definition push_back (s : Scanner) (c : column_index) : Scanner :=
  {| column_indices := column_indices s ++ [c] |}.

(** [pop_back] on an empty vector has no defined behaviour: [None]. *)
Definition pop_back (s : Scanner) : option Scanner :=
  match column_indices s with
  | [] => None
  | _ :: _ => Some {| column_indices := removelast (column_indices s) |}
  end.

(** [resize(n)]: keep the first [n] elements, fill up with zeros. *)
Definition resize (n : nat) (v : list column_index) : list column_index :=
  firstn n v ++ repeat 0 (n - length v).

Definition get_current_jlist_column_index (s : Scanner) : column_index :=
  match column_indices s with
  | [] => -1
  | _ :: _ => last (column_indices s) 0
  end.

(** ** Results of partial operations *)

Inductive Res (A : Type) : Type :=
| Ok (a : A)
| AssertFailed
| OutOfBounds.

Arguments Ok {A} a.
Arguments AssertFailed {A}.
Arguments OutOfBounds {A}.

(** ** Object representation of the vector's storage

    [memcpy] moves the columns in the host's object representation: two bytes
    per [int16_t], two's complement, in the byte order of the machine. *)

Inductive ByteOrder : Type :=
| LittleEndian
| BigEndian.

Definition column_bytes (order : ByteOrder) (c : column_index) : list Z :=
  let u := c mod 65536 in
  match order with
  | LittleEndian => [u mod 256; u / 256]
  | BigEndian => [u / 256; u mod 256]
  end.

Definition column_of_bytes (order : ByteOrder) (b0 b1 : Z) : column_index :=
  match order with
  | LittleEndian => to_int16 (b0 + 256 * b1)
  | BigEndian => to_int16 (256 * b0 + b1)
  end.

(** The bytes behind [column_indices.data()]. *)
Definition data_bytes (order : ByteOrder) (v : list column_index) : list Z :=
  flat_map (column_bytes order) v.

(** The vector whose storage holds the given bytes. *)
Fixpoint columns_of_bytes (order : ByteOrder) (bytes : list Z)
  : list column_index :=
  match bytes with
  | b0 :: b1 :: rest => column_of_bytes order b0 b1 :: columns_of_bytes order rest
  | _ => []
  end.

(** [memcpy(&buffer[offset], bytes, |bytes|)]. *)
Definition store (buffer : list Z) (offset : nat) (bytes : list Z)
  : option (list Z) :=
  if (offset + length bytes <=? length buffer)%nat
  then Some (firstn offset buffer ++ bytes
             ++ skipn (offset + length bytes) buffer)
  else None.

(** The [count] bytes at [&buffer[offset]]. *)
Definition load (buffer : list Z) (offset count : nat) : option (list Z) :=
  if (offset + count <=? length buffer)%nat
  then Some (firstn count (skipn offset buffer))
  else None.

(** ** State codec *)

Section Codec.

Variable order : ByteOrder.

(** Returns the buffer after the writes and the byte count. *)
Definition serialize (s : Scanner) (buffer : list Z) : Res (list Z * Z) :=
  let nested_conjlist_depth := Z.of_nat (length (column_indices s)) in
  if nested_conjlist_depth <=? UINT8_MAX then
    match store buffer 0 [to_uint8 nested_conjlist_depth] with
    | None => OutOfBounds
    | Some buffer0 =>
        let byte_count := nested_conjlist_depth * sizeof_column_index in
        let length_offset := 1 in
        if 0 <? nested_conjlist_depth then
          match store buffer0 (Z.to_nat length_offset)
                  (firstn (Z.to_nat byte_count)
                     (data_bytes order (column_indices s))) with
          | None => OutOfBounds
          | Some buffer1 => Ok (buffer1, length_offset + byte_count)
          end
        else Ok (buffer0, length_offset + byte_count)
    end
  else AssertFailed.

Definition deserialize (s : Scanner) (buffer : list Z) (length : Z)
  : Res Scanner :=
  if 0 <? length then
    match nth_error buffer 0 with
    | None => OutOfBounds
    | Some b0 =>
        let nested_conjlist_depth := to_uint8 b0 in
        let byte_count := nested_conjlist_depth * sizeof_column_index in
        let length_offset := 1 in
        if 0 <? nested_conjlist_depth then
          let resized :=
            resize (Z.to_nat nested_conjlist_depth) (column_indices s) in
          match load buffer (Z.to_nat length_offset) (Z.to_nat byte_count) with
          | None => OutOfBounds
          | Some bytes =>
              match store (data_bytes order resized) 0 bytes with
              | None => OutOfBounds
              | Some data =>
                  Ok {| column_indices := columns_of_bytes order data |}
              end
          end
        else Ok s
    end
  else Ok s.

End Codec.

(** ** The host's lexer

    Modelled from the spec: the cursor primitives of the host ([TSLexer],
    declared in [tree_sitter/parser.h], which is not among the sources):
    peek-next-character, advance-and-consume, advance-and-mark-trivia,
    mark-token-end, get-current-column, detect-end-of-input. The cursor
    stands in front of [input]; the column counts the characters since the
    start of the line. *)

Record TSLexer : Type := mkLexer {
  input : list Z;                  (* code points from the cursor onwards *)
  column : Z;                      (* column of the cursor *)
  position : Z;                    (* characters before the cursor *)
  token_start : Z;                 (* moved along by skipped characters *)
  token_end : option Z;            (* set by [mark_end] *)
  result_symbol : option TokenType
}.

(** [lexer->lookahead]: the next code point, [0] at the end of the input. *)
Definition lookahead (lexer : TSLexer) : Z :=
  match input lexer with
  | [] => 0
  | c :: _ => c
  end.

(** [lexer->advance(lexer, skip)]. *)
Definition lexer_advance (lexer : TSLexer) (skip : bool) : TSLexer :=
  match input lexer with
  | [] => lexer
  | c :: rest =>
      {| input := rest;
         column := if c =? 10 then 0 else column lexer + 1;
         position := position lexer + 1;
         token_start :=
           if skip then position lexer + 1 else token_start lexer;
         token_end := token_end lexer;
         result_symbol := result_symbol lexer |}
  end.

(** [lexer->mark_end(lexer)]. *)
Definition mark_end (lexer : TSLexer) : TSLexer :=
  {| input := input lexer;
     column := column lexer;
     position := position lexer;
     token_start := token_start lexer;
     token_end := Some (position lexer);
     result_symbol := result_symbol lexer |}.

(** [lexer->get_column(lexer)], a [uint32_t]. *)
Definition get_column (lexer : TSLexer) : Z := column lexer.

(** [lexer->result_symbol = t]. *)
Definition set_result_symbol (lexer : TSLexer) (t : TokenType) : TSLexer :=
  {| input := input lexer;
     column := column lexer;
     position := position lexer;
     token_start := token_start lexer;
     token_end := token_end lexer;
     result_symbol := Some t |}.

(** ** Code points of the character literals in [scan] *)

Definition SPACE : Z := 32.
Definition TAB : Z := 9.
Definition LF : Z := 10.
Definition CR : Z := 13.

(** The label of [case '∧':]. The source writes the sign in UTF-8 inside a
    narrow character literal, the three bytes E2 88 A7; such a literal is a
    multi-character constant of type [int] whose value is
    implementation-defined, and g++ builds it from the bytes: 0xE288A7. It is
    not the code point of the sign, 0x2227, which is what the host hands out
    in [lookahead] when the sign stands in the text. *)
Definition LAND_CASE_LABEL : Z := 14846119.

Definition SLASH : Z := 47.
Definition BACKSLASH : Z := 92.

(** ** Token decision engine *)

(** What a call of [scan] or of one of its handlers comes to. *)
Inductive Outcome : Type :=
| Returned (value : bool) (s : Scanner) (lexer : TSLexer)
| NoReturn (s : Scanner) (lexer : TSLexer)
    (* control reached the end of [scan] without a [return] statement *)
| AssertionFailed
    (* an [assert] on [valid_symbols] did not hold *)
| PopBackEmpty.
    (* [pop_back] on an empty vector *)

Definition advance (lexer : TSLexer) : TSLexer := lexer_advance lexer false.

Definition skip (lexer : TSLexer) : TSLexer := lexer_advance lexer true.

Definition next_codepoint (lexer : TSLexer) : Z := lookahead lexer.

Definition next_codepoint_is (lexer : TSLexer) (token : Z) : bool :=
  token =? next_codepoint lexer.

Definition has_next (lexer : TSLexer) : bool :=
  negb (next_codepoint_is lexer 0).

Definition next_codepoint_is_one_of (lexer : TSLexer) (tokens : list Z) : bool :=
  existsb (next_codepoint_is lexer) tokens.

Definition handle_land_token (s : Scanner) (lexer : TSLexer)
    (valid_symbols : TokenType -> bool) (next : column_index) : Outcome :=
  let current := get_current_jlist_column_index s in
  if current <? next then
    if valid_symbols INDENT then
      Returned true (push_back s next) (set_result_symbol lexer INDENT)
    else Returned false s lexer
  else if current =? next then
    if valid_symbols NEWLINE then
      Returned true s (set_result_symbol lexer NEWLINE)
    else AssertionFailed
  else
    if valid_symbols DEDENT then
      match pop_back s with
      | Some s' => Returned true s' (set_result_symbol lexer DEDENT)
      | None => PopBackEmpty
      end
    else AssertionFailed.

Definition handle_non_land_token (s : Scanner) (lexer : TSLexer)
    (valid_symbols : TokenType -> bool) (next : column_index) : Outcome :=
  let current := get_current_jlist_column_index s in
  if next <=? current then
    if valid_symbols DEDENT then
      match pop_back s with
      | Some s' => Returned true s' (set_result_symbol lexer DEDENT)
      | None => PopBackEmpty
      end
    else AssertionFailed
  else Returned false s lexer.

(** The body of the [switch] for a character that is not white space. *)
Definition scan_token (s : Scanner) (lexer : TSLexer)
    (valid_symbols : TokenType -> bool) : Outcome :=
  let c := next_codepoint lexer in
  if c =? LAND_CASE_LABEL then
    let conj_col := to_int16 (get_column lexer) in
    let lexer := mark_end lexer in
    handle_land_token s lexer valid_symbols conj_col
  else if c =? SLASH then
    let conj_col := to_int16 (get_column lexer) in
    let lexer := mark_end lexer in
    let lexer := advance lexer in
    if next_codepoint_is lexer BACKSLASH then
      handle_land_token s lexer valid_symbols conj_col
    else Returned false s lexer
  else
    let conj_col := to_int16 (get_column lexer) in
    handle_non_land_token s lexer valid_symbols conj_col.

Definition is_space (c : Z) : bool :=
  (c =? SPACE) || (c =? TAB) || (c =? LF) || (c =? CR).

(** The [while (has_next(lexer))] loop. Every iteration that comes back to
    the loop head has skipped one character, so the loop is defined by
    recursion on the characters still ahead of the cursor ([pending], which
    is [input lexer] at every call); [scan_loop_unfold] below gives the loop
    in the shape of the source. *)
Fixpoint scan_loop (pending : list Z) (s : Scanner) (lexer : TSLexer)
    (valid_symbols : TokenType -> bool) : Outcome :=
  match pending with
  | [] => NoReturn s lexer
  | _ :: pending' =>
      if has_next lexer then
        if is_space (next_codepoint lexer) then
          scan_loop pending' s (skip lexer) valid_symbols
        else scan_token s lexer valid_symbols
      else NoReturn s lexer
  end.

Definition scan (s : Scanner) (lexer : TSLexer)
    (valid_symbols : TokenType -> bool) : Outcome :=
  if valid_symbols INDENT || valid_symbols NEWLINE || valid_symbols DEDENT
  then scan_loop (input lexer) s lexer valid_symbols
  else NoReturn s lexer.

(** ** Reading outcomes *)

(** The structural token an outcome hands to the host, if any. *)
Definition emitted (o : Outcome) : option TokenType :=
  match o with
  | Returned true _ lexer => result_symbol lexer
  | _ => None
  end.

(** The scanner state an outcome leaves behind, if the call finished. *)
Definition scanner_after (o : Outcome) : option Scanner :=
  match o with
  | Returned _ s _ => Some s
  | NoReturn s _ => Some s
  | _ => None
  end.

Definition lexer_after (o : Outcome) : option TSLexer :=
  match o with
  | Returned _ _ lexer => Some lexer
  | NoReturn _ lexer => Some lexer
  | _ => None
  end.

(** ** Vocabulary of the claims *)

(** The cursor after the white space in front of it has been skipped. *)
Fixpoint skip_spaces (pending : list Z) (lexer : TSLexer) : TSLexer :=
  match pending with
  | [] => lexer
  | c :: pending' =>
      if is_space c then skip_spaces pending' (skip lexer) else lexer
  end.

Definition at_token (lexer : TSLexer) : TSLexer :=
  skip_spaces (input lexer) lexer.

(** The code point of the logical-and sign, U+2227. *)
Definition LAND_SIGN : Z := 8743.

(** The characters at the cursor spell the connective: the sign itself, or
    a slash followed by a backslash. *)
Definition spells_land (lexer : TSLexer) : bool :=
  match input lexer with
  | c :: rest =>
      (c =? LAND_SIGN)
      || ((c =? SLASH)
          && match rest with d :: _ => d =? BACKSLASH | [] => false end)
  | [] => false
  end.

(** The cursor stands where [scan] runs its connective case: the next code
    point equals the case label, or is a slash followed by a backslash. *)
Definition takes_land_case (lexer : TSLexer) : bool :=
  match input lexer with
  | c :: rest =>
      (c =? LAND_CASE_LABEL)
      || ((c =? SLASH)
          && match rest with d :: _ => d =? BACKSLASH | [] => false end)
  | [] => false
  end.

(** A character that starts some other token stands at the cursor: not
    white space, not the end of the input, not a spelling of the connective,
    and not the value of the case label (which is no code point at all). *)
Definition spells_other (lexer : TSLexer) : bool :=
  has_next lexer && negb (is_space (lookahead lexer))
  && negb (spells_land lexer)
  && negb (lookahead lexer =? LAND_CASE_LABEL).

Definition legal (valid_symbols : TokenType -> bool) (t : TokenType) : Prop :=
  valid_symbols t = true.

Definition only (t : TokenType) : TokenType -> bool := TokenType_eqb t.

Definition none_valid : TokenType -> bool := fun _ => false.

Definition all_valid : TokenType -> bool := fun _ => true.

(** The cursor the land handler is called with: where it was, for the case
    label, or behind the slash of the two-character spelling. *)
Definition land_cursor (first : TSLexer) : TSLexer :=
  if next_codepoint first =? LAND_CASE_LABEL then mark_end first
  else advance (mark_end first).

(** The column [scan] measures for the token in front of the cursor: the
    host's column at the first character behind the white space, converted
    to [column_index]. *)
Definition token_column (lexer : TSLexer) : column_index :=
  to_int16 (get_column (at_token lexer)).

(** The gate of [scan]: some structural token is legal. *)
Definition some_legal (valid_symbols : TokenType -> bool) : Prop :=
  legal valid_symbols INDENT \/ legal valid_symbols NEWLINE
  \/ legal valid_symbols DEDENT.

(** The connective stands behind the white space, and [scan] measures
    column [c] for it. *)
Definition land_at (lexer : TSLexer) (c : column_index) : Prop :=
  spells_land (at_token lexer) = true /\ token_column lexer = c.

(** Some other token stands behind the white space, at measured column
    [c]. *)
Definition other_at (lexer : TSLexer) (c : column_index) : Prop :=
  spells_other (at_token lexer) = true /\ token_column lexer = c.

(** A call that finds the connective at column [c] while list-open is
    legal. *)
Definition open_call (call : TSLexer * (TokenType -> bool))
    (c : column_index) : Prop :=
  legal (snd call) INDENT /\ land_at (fst call) c.

(** [scan] runs its connective case, and measures column [c]. *)
Definition land_case_at (lexer : TSLexer) (c : column_index) : Prop :=
  takes_land_case (at_token lexer) = true /\ token_column lexer = c.

(** [scan] runs its default case: there is a next code point, which is not
    white space, not the case label and not a slash. *)
Definition takes_default_case (lexer : TSLexer) : bool :=
  has_next lexer && negb (is_space (next_codepoint lexer))
  && negb (next_codepoint lexer =? LAND_CASE_LABEL)
  && negb (next_codepoint lexer =? SLASH).

(** A call that runs the connective case at column [c] while list-open is
    legal. *)
Definition open_case_call (call : TSLexer * (TokenType -> bool))
    (c : column_index) : Prop :=
  legal (snd call) INDENT /\ land_case_at (fst call) c.

(** Strictly increasing from bottom to top. *)
Fixpoint increasing (v : list column_index) : bool :=
  match v with
  | [] => true
  | a :: rest =>
      match rest with
      | [] => true
      | b :: _ => (a <? b) && increasing rest
      end
  end.

(** One call changes the stack by at most one push or one pop, and a push
    is of a column beyond the current one. *)
Definition stack_step (s s' : Scanner) : Prop :=
  s' = s
  \/ (exists c, get_current_jlist_column_index s < c /\ s' = push_back s c)
  \/ pop_back s = Some s'.

(** Scanner states reached from the empty stack by calls of [scan]. *)
Inductive reachable : Scanner -> Prop :=
| reachable_create : reachable create
| reachable_scan s lexer valid_symbols s' :
    reachable s ->
    scanner_after (scan s lexer valid_symbols) = Some s' ->
    reachable s'.

(** A run of calls of [scan], each on the scanner the previous one left. *)
Fixpoint scan_all (s : Scanner) (calls : list (TSLexer * (TokenType -> bool)))
  : option (list (option TokenType) * Scanner) :=
  match calls with
  | [] => Some ([], s)
  | (lexer, valid_symbols) :: calls' =>
      let o := scan s lexer valid_symbols in
      match scanner_after o with
      | None => None
      | Some s' =>
          match scan_all s' calls' with
          | None => None
          | Some (tokens, s'') => Some (emitted o :: tokens, s'')
          end
      end
  end.

(** A lexer standing at the start of a line that holds [text] after
    [indent] spaces. *)
Definition line (indent : nat) (text : list Z) : TSLexer :=
  {| input := repeat SPACE indent ++ text;
     column := 0; position := 0; token_start := 0;
     token_end := None; result_symbol := None |}.

(** The scanner whose stack holds the columns [0; 1; ...; n - 1]. *)
Definition ramp (n : nat) : Scanner :=
  {| column_indices := map Z.of_nat (seq 0 n) |}.

(** The bytes of a snapshot behind its depth byte. *)
Definition payload (buffer : list Z) (depth : Z) : list Z :=
  firstn (Z.to_nat (depth * sizeof_column_index)) (skipn 1 buffer).

(** How the token an outcome hands out goes with the change of the stack,
    for a call that measured column [next]. *)
Definition token_effect (s : Scanner) (next : column_index) (o : Outcome)
  : Prop :=
  match emitted o with
  | Some INDENT =>
      get_current_jlist_column_index s < next
      /\ scanner_after o = Some (push_back s next)
  | Some NEWLINE =>
      get_current_jlist_column_index s = next /\ scanner_after o = Some s
  | Some DEDENT =>
      next <= get_current_jlist_column_index s
      /\ exists s', pop_back s = Some s' /\ scanner_after o = Some s'
  | None => scanner_after o = Some s \/ scanner_after o = None
  end.

(** The calls on which the legal tokens and the stack disagree: the
    connective case at the current column without item-separator legal, the
    connective case left of it without list-close legal, or the default
    case at or left of it without list-close legal. *)
Definition oracle_mismatch (s : Scanner) (lexer : TSLexer)
    (valid_symbols : TokenType -> bool) : Prop :=
  (takes_land_case (at_token lexer) = true
   /\ token_column lexer = get_current_jlist_column_index s
   /\ valid_symbols NEWLINE = false)
  \/ (takes_land_case (at_token lexer) = true
      /\ token_column lexer < get_current_jlist_column_index s
      /\ valid_symbols DEDENT = false)
  \/ (takes_default_case (at_token lexer) = true
      /\ token_column lexer <= get_current_jlist_column_index s
      /\ valid_symbols DEDENT = false).

(** * Properties *)

(** ** Machine integers and the object representation *)

Lemma to_int16_id (z : Z) : int16_range z -> to_int16 z = z.
Proof.
  unfold int16_range, to_int16. intros H.
  rewrite Z.mod_small by lia. lia.
Qed.

Lemma to_int16_range (z : Z) : int16_range (to_int16 z).
Proof.
  unfold int16_range, to_int16.
  pose proof (Z.mod_pos_bound (z + 32768) 65536). lia.
Qed.

Lemma to_uint8_id (z : Z) : byte_range z -> to_uint8 z = z.
Proof. unfold byte_range, to_uint8. intros H. apply Z.mod_small. lia. Qed.

Lemma column_bytes_range (order : ByteOrder) (c : column_index) :
  Forall byte_range (column_bytes order c).
Proof.
  pose proof (Z.mod_pos_bound c 65536 eq_refl) as Hu.
  pose proof (Z.mod_pos_bound (c mod 65536) 256 eq_refl) as Hlo.
  assert (0 <= c mod 65536 / 256 <= 255) as Hhi.
  { split; [apply Z.div_pos; lia | apply Z.lt_succ_r, Z.div_lt_upper_bound; lia]. }
  unfold byte_range. destruct order; cbn; repeat constructor; lia.
Qed.

Lemma column_of_bytes_column_bytes (order : ByteOrder) (c : column_index) :
  int16_range c ->
  match column_bytes order c with
  | [b0; b1] => column_of_bytes order b0 b1 = c
  | _ => False
  end.
Proof.
  intros Hc.
  pose proof (Z.div_mod (c mod 65536) 256 ltac:(lia)) as Hsplit.
  assert (to_int16 (c mod 65536) = c) as Hwrap.
  { unfold int16_range in Hc. unfold to_int16.
    destruct (Z_lt_ge_dec c 0) as [Hneg | Hpos].
    - replace (c mod 65536) with (c + 65536).
      + replace (c + 65536 + 32768) with (c + 32768 + 1 * 65536) by lia.
        rewrite Z.mod_add by lia. rewrite Z.mod_small by lia. lia.
      + apply Z.mod_unique with (q := -1); lia.
    - rewrite (Z.mod_small c) by lia. rewrite Z.mod_small by lia. lia. }
  destruct order; unfold column_bytes, column_of_bytes.
  - replace (c mod 65536 mod 256 + 256 * (c mod 65536 / 256))
      with (c mod 65536) by lia.
    exact Hwrap.
  - replace (256 * (c mod 65536 / 256) + c mod 65536 mod 256)
      with (c mod 65536) by lia.
    exact Hwrap.
Qed.

Lemma length_data_bytes (order : ByteOrder) (v : list column_index) :
  length (data_bytes order v) = (2 * length v)%nat.
Proof.
  induction v as [| c v IH]; [reflexivity |].
  unfold data_bytes in *. cbn [flat_map]. rewrite length_app, IH.
  destruct order; cbn [column_bytes length]; lia.
Qed.

Lemma columns_of_data_bytes (order : ByteOrder) (v : list column_index) :
  Forall int16_range v -> columns_of_bytes order (data_bytes order v) = v.
Proof.
  induction 1 as [| c v Hc _ IH]; [reflexivity |].
  unfold data_bytes in *. cbn [flat_map].
  pose proof (column_of_bytes_column_bytes order c Hc) as Hcol.
  destruct (column_bytes order c) as [| b0 [| b1 [| ? ?]]]; try contradiction.
  cbn [app columns_of_bytes]. now rewrite Hcol, IH.
Qed.

Lemma length_resize (n : nat) (v : list column_index) :
  length (resize n v) = n.
Proof.
  unfold resize. rewrite length_app, length_firstn, repeat_length. lia.
Qed.

(** ** The stack *)

Lemma current_push_back (s : Scanner) (c : column_index) :
  get_current_jlist_column_index (push_back s c) = c.
Proof.
  unfold get_current_jlist_column_index, push_back. cbn [column_indices].
  destruct (column_indices s ++ [c]) eqn:E.
  - now destruct (column_indices s).
  - rewrite <- E. apply last_last.
Qed.

Lemma pop_back_push_back (s : Scanner) (c : column_index) :
  pop_back (push_back s c) = Some s.
Proof.
  unfold pop_back, push_back. cbn [column_indices].
  destruct (column_indices s ++ [c]) eqn:E.
  - now destruct (column_indices s).
  - rewrite <- E, removelast_last. now destruct s.
Qed.

Lemma increasing_app_last (v : list column_index) (c : column_index) :
  increasing (v ++ [c]) = true <->
  increasing v = true /\ (v = [] \/ last v 0 < c).
Proof.
  induction v as [| a v IH]; cbn [app increasing].
  - intuition.
  - destruct v as [| b v].
    + cbn [app increasing last]. rewrite andb_true_r, Z.ltb_lt.
      intuition (try discriminate; auto).
    + change ((b :: v) ++ [c]) with (b :: v ++ [c]) in *.
      change (last (a :: b :: v) 0) with (last (b :: v) 0).
      cbn [increasing] in *.
      rewrite !andb_true_iff, Z.ltb_lt in *.
      split.
      * intros [Hab Hrest]. apply IH in Hrest as [Hinc [Hnil | Hlast]];
          [discriminate | auto].
      * intros [[Hab Hinc] [Hnil | Hlast]]; [discriminate |].
        split; [exact Hab |]. apply IH. auto.
Qed.

Lemma increasing_removelast (v : list column_index) :
  increasing v = true -> increasing (removelast v) = true.
Proof.
  destruct v as [| a v] using rev_ind; [auto |].
  rewrite removelast_last. intros H. now apply increasing_app_last in H.
Qed.

(** ** State codec *)

Section CodecProperties.

Variable order : ByteOrder.

Lemma store_head (b x : Z) (buffer : list Z) :
  store (b :: buffer) 0 [x] = Some (x :: buffer).
Proof. reflexivity. Qed.

Lemma store_after_head (x : Z) (buffer bytes : list Z) :
  (length bytes <= length buffer)%nat ->
  store (x :: buffer) 1 bytes
  = Some (x :: bytes ++ skipn (length bytes) buffer).
Proof.
  intros Hroom. unfold store. cbn [length Nat.add].
  destruct (Nat.leb_spec (S (length bytes)) (S (length buffer))); [| lia].
  reflexivity.
Qed.

(** What [serialize] leaves in a buffer that has room for the snapshot. *)
Lemma serialize_result (s : Scanner) (buffer : list Z) :
  let N := length (column_indices s) in
  Z.of_nat N <= UINT8_MAX ->
  (1 + 2 * N <= length buffer)%nat ->
  serialize order s buffer
  = Ok (Z.of_nat N :: data_bytes order (column_indices s)
          ++ skipn (1 + 2 * N) buffer,
        1 + 2 * Z.of_nat N).
Proof.
  intros N Hdepth Hroom. unfold serialize. fold N.
  destruct (Z.leb_spec (Z.of_nat N) UINT8_MAX) as [_ | Hbad]; [| lia].
  destruct buffer as [| b buffer]; [cbn in Hroom; lia |].
  rewrite store_head, to_uint8_id by (unfold byte_range, UINT8_MAX in *; lia).
  unfold sizeof_column_index.
  replace (Z.of_nat N * 2) with (2 * Z.of_nat N) by lia.
  assert (length (data_bytes order (column_indices s)) = (2 * N)%nat) as Hlen
    by apply length_data_bytes.
  destruct (Z.ltb_spec 0 (Z.of_nat N)) as [Hpos | Hzero].
  - replace (Z.to_nat (2 * Z.of_nat N)) with (2 * N)%nat by lia.
    rewrite <- Hlen at 1. rewrite firstn_all.
    change (Z.to_nat 1) with 1%nat.
    rewrite store_after_head by (cbn [length] in Hroom; lia).
    rewrite Hlen. reflexivity.
  - assert (N = 0%nat) as HN by lia.
    destruct (column_indices s); [| subst N; discriminate].
    reflexivity.
Qed.

(** Reading back a snapshot of a non-empty stack replaces whatever the
    scanner held. *)
Lemma deserialize_snapshot (prior : Scanner) (v : list column_index)
    (rest : list Z) :
  v <> [] ->
  Z.of_nat (length v) <= UINT8_MAX ->
  Forall int16_range v ->
  deserialize order prior
    (Z.of_nat (length v) :: data_bytes order v ++ rest)
    (1 + 2 * Z.of_nat (length v))
  = Ok {| column_indices := v |}.
Proof.
  intros Hne Hdepth Hcols. unfold deserialize.
  assert (0 < Z.of_nat (length v)) as Hpos
    by (destruct v; [contradiction | cbn [length]; lia]).
  destruct (Z.ltb_spec 0 (1 + 2 * Z.of_nat (length v))); [| lia].
  cbn [nth_error].
  rewrite to_uint8_id by (unfold byte_range, UINT8_MAX in *; lia).
  destruct (Z.ltb_spec 0 (Z.of_nat (length v))); [| lia].
  unfold sizeof_column_index, load. change (Z.to_nat 1) with 1%nat.
  replace (Z.to_nat (Z.of_nat (length v) * 2)) with (2 * length v)%nat by lia.
  rewrite Nat2Z.id.
  pose proof (length_data_bytes order v) as Hlen.
  cbn [length skipn]. rewrite length_app, Hlen.
  destruct (Nat.leb_spec (1 + 2 * length v)
              (S (2 * length v + length rest))); [| lia].
  rewrite <- Hlen at 1. rewrite firstn_app, firstn_all, Nat.sub_diag.
  cbn [firstn]. rewrite app_nil_r.
  unfold store. rewrite Hlen, length_data_bytes, length_resize.
  destruct (Nat.leb_spec (0 + 2 * length v) (2 * length v)); [| lia].
  cbn [firstn app]. rewrite skipn_all2
    by (rewrite length_data_bytes, length_resize; lia).
  rewrite app_nil_r, columns_of_data_bytes by assumption.
  reflexivity.
Qed.

(** A snapshot with depth byte zero, and a call with length zero, leave the
    scanner as it was. *)
Lemma deserialize_depth_zero (prior : Scanner) (rest : list Z) (n : Z) :
  deserialize order prior (0 :: rest) n = Ok prior.
Proof.
  unfold deserialize. destruct (0 <? n); reflexivity.
Qed.

(** Round trip for every stack but the empty one. *)
Lemma roundtrip_nonempty (prior s : Scanner) (buffer buffer' : list Z)
    (n : Z) :
  column_indices s <> [] ->
  Forall int16_range (column_indices s) ->
  (1 + 2 * length (column_indices s) <= length buffer)%nat ->
  serialize order s buffer = Ok (buffer', n) ->
  deserialize order prior buffer' n = Ok s.
Proof.
  intros Hne Hcols Hroom Hser.
  destruct (Z.leb_spec (Z.of_nat (length (column_indices s))) UINT8_MAX)
    as [Hdepth | Hdeep].
  - rewrite serialize_result in Hser by assumption.
    injection Hser as <- <-.
    rewrite deserialize_snapshot by assumption. now destruct s.
  - unfold serialize in Hser.
    destruct (Z.leb_spec (Z.of_nat (length (column_indices s))) UINT8_MAX);
      [lia | discriminate].
Qed.

(** Round trip into a scanner that holds the empty stack. *)
Lemma roundtrip_fresh (s : Scanner) (buffer buffer' : list Z) (n : Z) :
  Forall int16_range (column_indices s) ->
  (1 + 2 * length (column_indices s) <= length buffer)%nat ->
  serialize order s buffer = Ok (buffer', n) ->
  deserialize order create buffer' n = Ok s.
Proof.
  intros Hcols Hroom Hser.
  destruct (column_indices s) as [| c v] eqn:Hv.
  - unfold serialize in Hser. rewrite Hv in Hser.
    destruct buffer as [| b buffer]; [cbn in Hroom; lia |].
    cbn in Hser. injection Hser as <- <-.
    rewrite deserialize_depth_zero. destruct s. cbn in Hv. now subst.
  - rewrite <- Hv in *.
    apply (roundtrip_nonempty create s buffer); try assumption.
    rewrite Hv. discriminate.
Qed.

End CodecProperties.

Lemma data_bytes_at (order : ByteOrder) (v : list column_index) (rest : list Z)
    (i : nat) (c : column_index) :
  nth_error v i = Some c ->
  firstn 2 (skipn (2 * i) (data_bytes order v ++ rest)) = column_bytes order c.
Proof.
  revert i. induction v as [| a v IH]; intros i Hi.
  - destruct i; discriminate.
  - destruct i as [| i].
    + injection Hi as ->. destruct order; reflexivity.
    + replace (2 * S i)%nat with (S (S (2 * i))) by lia.
      cbn [nth_error] in Hi. rewrite <- (IH i Hi).
      destruct order; reflexivity.
Qed.

(** C1, at the input where the code departs from it: the snapshot of the
    empty stack is the single byte 0, and reading it back into a scanner
    that holds the stack [2] leaves that stack in place instead of
    restoring the empty one. *)
Theorem deserialize_empty_snapshot_keeps_stack (order : ByteOrder) :
  exists snapshot,
    serialize order create (repeat 0 1024) = Ok (snapshot, 1)
    /\ nth_error snapshot 0 = Some 0
    /\ deserialize order {| column_indices := [2] |} snapshot 1
       = Ok {| column_indices := [2] |}
    /\ {| column_indices := [2] |} <> create.
Proof.
  exists (repeat 0 1024). repeat split; discriminate.
Qed.

(** C8: for a stack of depth [N <= 255] (and a buffer with room for
    [1 + 2 * N] bytes) [serialize] succeeds, returns [1 + 2 * N], puts [N]
    in the first byte and behind it, for every index [i] from the bottom of
    the stack, the two bytes of the 16-bit value of column [i]; no other
    byte of the buffer changes. *)
Theorem serialize_wire_format (order : ByteOrder) (s : Scanner)
    (buffer : list Z) :
  Z.of_nat (length (column_indices s)) <= 255 ->
  Forall int16_range (column_indices s) ->
  (1 + 2 * length (column_indices s) <= length buffer)%nat ->
  exists buffer',
    serialize order s buffer
    = Ok (buffer', 1 + 2 * Z.of_nat (length (column_indices s)))
    /\ nth_error buffer' 0 = Some (Z.of_nat (length (column_indices s)))
    /\ (forall i c,
          nth_error (column_indices s) i = Some c ->
          exists b0 b1,
            load buffer' (1 + 2 * i) 2 = Some [b0; b1]
            /\ byte_range b0 /\ byte_range b1
            /\ column_of_bytes order b0 b1 = c)
    /\ length buffer' = length buffer
    /\ skipn (1 + 2 * length (column_indices s)) buffer'
       = skipn (1 + 2 * length (column_indices s)) buffer.
Proof.
  intros Hdepth Hcols Hroom.
  set (v := column_indices s) in *.
  pose proof (length_data_bytes order v) as Hlen.
  eexists. split; [apply serialize_result; assumption |].
  fold v. split; [reflexivity |]. split; [| split].
  - intros i c Hi.
    assert (i < length v)%nat as Hlt by (apply nth_error_Some; congruence).
    assert (int16_range c) as Hc
      by (rewrite Forall_forall in Hcols; eapply Hcols, nth_error_In, Hi).
    pose proof (column_of_bytes_column_bytes order c Hc) as Hdec.
    pose proof (column_bytes_range order c) as Hrange.
    pose proof (data_bytes_at order v (skipn (1 + 2 * length v) buffer) i c Hi)
      as Hat.
    destruct (column_bytes order c) as [| b0 [| b1 [| ? ?]]];
      try contradiction.
    exists b0, b1. split.
    + set (tail := skipn (1 + 2 * length v) buffer) in *.
      unfold load. cbn [length Nat.add]. rewrite length_app, Hlen.
      destruct (Nat.leb_spec (S (2 * i + 2)) (S (2 * length v + length tail)));
        [| lia].
      change (skipn (S (2 * i)) (?x :: ?l)) with (skipn (2 * i) l).
      now rewrite Hat.
    + inversion Hrange as [| ? ? H0 Htl]; subst.
      inversion Htl; subst. auto.
  - cbn [length]. rewrite length_app, Hlen, length_skipn. lia.
  - change (skipn (1 + ?n) (?x :: ?l)) with (skipn n l).
    rewrite <- Hlen at 1. rewrite skipn_app, skipn_all, Nat.sub_diag.
    reflexivity.
Qed.

Lemma serialize_wire_format_witness :
  exists buffer',
    serialize LittleEndian {| column_indices := [2; 5] |} (repeat 0 8)
    = Ok (buffer', 5)
    /\ nth_error buffer' 0 = Some 2.
Proof.
  destruct (serialize_wire_format LittleEndian {| column_indices := [2; 5] |}
              (repeat 0 8)) as [buffer' [Hser [Hhead _]]].
  - cbn. lia.
  - repeat constructor; unfold int16_range; lia.
  - cbn. lia.
  - exists buffer'. split; [exact Hser | exact Hhead].
Defined.

(** ** The scan loop *)

Lemma is_space_has_next (lexer : TSLexer) :
  is_space (next_codepoint lexer) = true -> has_next lexer = true.
Proof.
  unfold has_next, next_codepoint_is, is_space, SPACE, TAB, LF, CR.
  destruct (Z.eqb_spec 0 (next_codepoint lexer)) as [<- | _];
    [discriminate | reflexivity].
Qed.

(** The loop as the source writes it: test [has_next], then dispatch on the
    next code point, going round again after a skipped character. *)
Lemma scan_loop_unfold (s : Scanner) (lexer : TSLexer)
    (valid_symbols : TokenType -> bool) :
  scan_loop (input lexer) s lexer valid_symbols
  = if has_next lexer then
      if is_space (next_codepoint lexer) then
        scan_loop (input (skip lexer)) s (skip lexer) valid_symbols
      else scan_token s lexer valid_symbols
    else NoReturn s lexer.
Proof.
  destruct (input lexer) as [| c pending] eqn:Hin; cbn [scan_loop].
  - unfold has_next, next_codepoint_is, next_codepoint, lookahead.
    now rewrite Hin.
  - assert (input (skip lexer) = pending) as ->
      by (unfold skip, lexer_advance; now rewrite Hin).
    reflexivity.
Qed.

Lemma at_token_unfold (lexer : TSLexer) :
  at_token lexer
  = if is_space (next_codepoint lexer) then at_token (skip lexer) else lexer.
Proof.
  unfold at_token, next_codepoint, lookahead.
  destruct (input lexer) as [| c pending] eqn:Hin; [reflexivity |].
  cbn [skip_spaces]. destruct (is_space c); [| reflexivity].
  assert (input (skip lexer) = pending) as ->
    by (unfold skip, lexer_advance; now rewrite Hin).
  reflexivity.
Qed.

Lemma skip_spaces_not_space (pending : list Z) (lexer : TSLexer) :
  input lexer = pending ->
  is_space (next_codepoint (skip_spaces pending lexer)) = false.
Proof.
  revert lexer. induction pending as [| c pending IH]; intros lexer Hin.
  - unfold next_codepoint, lookahead. cbn [skip_spaces]. now rewrite Hin.
  - cbn [skip_spaces]. destruct (is_space c) eqn:Hc.
    + apply IH. unfold skip, lexer_advance. now rewrite Hin.
    + unfold next_codepoint, lookahead. now rewrite Hin.
Qed.

Lemma at_token_not_space (lexer : TSLexer) :
  is_space (next_codepoint (at_token lexer)) = false.
Proof. now apply skip_spaces_not_space. Qed.

(** The loop skips exactly the white space in front of the cursor. *)
Lemma scan_loop_at_token (s : Scanner) (lexer : TSLexer)
    (valid_symbols : TokenType -> bool) :
  scan_loop (input lexer) s lexer valid_symbols
  = if has_next (at_token lexer)
    then scan_token s (at_token lexer) valid_symbols
    else NoReturn s (at_token lexer).
Proof.
  remember (input lexer) as pending eqn:Hin.
  revert lexer Hin. induction pending as [| c pending IH]; intros lexer Hin.
  - assert (at_token lexer = lexer) as ->
      by (unfold at_token; now rewrite <- Hin).
    assert (has_next lexer = false) as ->
      by (unfold has_next, next_codepoint_is, next_codepoint, lookahead;
          now rewrite <- Hin).
    reflexivity.
  - rewrite Hin, scan_loop_unfold, at_token_unfold.
    destruct (is_space (next_codepoint lexer)) eqn:Hsp.
    + rewrite (is_space_has_next lexer Hsp).
      assert (pending = input (skip lexer)) as Hskip
        by (unfold skip, lexer_advance; now rewrite <- Hin).
      rewrite <- Hskip at 1. now apply IH.
    + now destruct (has_next lexer).
Qed.

Lemma spells_land_has_next (lexer : TSLexer) :
  spells_land lexer = true -> has_next lexer = true.
Proof.
  unfold spells_land, has_next, next_codepoint_is, next_codepoint, lookahead.
  destruct (input lexer) as [| c rest]; [discriminate |].
  unfold LAND_SIGN, SLASH. intros H.
  destruct (Z.eqb_spec 0 c) as [<- | _]; [discriminate | reflexivity].
Qed.

Lemma takes_land_case_has_next (lexer : TSLexer) :
  takes_land_case lexer = true -> has_next lexer = true.
Proof.
  unfold takes_land_case, has_next, next_codepoint_is, next_codepoint,
    lookahead.
  destruct (input lexer) as [| c rest]; [discriminate |].
  unfold LAND_CASE_LABEL, SLASH. intros H.
  destruct (Z.eqb_spec 0 c) as [<- | _]; [discriminate | reflexivity].
Qed.

(** The connective case of the switch, for both of its entries. *)
Lemma scan_token_land (s : Scanner) (first : TSLexer)
    (valid_symbols : TokenType -> bool) :
  takes_land_case first = true ->
  scan_token s first valid_symbols
  = handle_land_token s (land_cursor first) valid_symbols
      (to_int16 (get_column first)).
Proof.
  unfold takes_land_case, scan_token, land_cursor, next_codepoint, lookahead.
  destruct (input first) as [| c rest] eqn:Hin; [discriminate |].
  destruct (c =? LAND_CASE_LABEL); [reflexivity |]. cbn [orb].
  destruct (c =? SLASH); [| discriminate]. cbn [andb].
  unfold next_codepoint_is, next_codepoint, lookahead, advance, lexer_advance,
    mark_end. cbn [input]. rewrite Hin. cbn [input].
  destruct rest as [| d rest]; [discriminate |].
  intros Hd. now rewrite Z.eqb_sym, Hd.
Qed.

(** The default case of the switch. *)
Lemma scan_token_other (s : Scanner) (first : TSLexer)
    (valid_symbols : TokenType -> bool) :
  next_codepoint first <> LAND_CASE_LABEL ->
  next_codepoint first <> SLASH ->
  scan_token s first valid_symbols
  = handle_non_land_token s first valid_symbols (to_int16 (get_column first)).
Proof.
  intros Hland Hslash. unfold scan_token.
  destruct (Z.eqb_spec (next_codepoint first) LAND_CASE_LABEL);
    [contradiction |].
  destruct (Z.eqb_spec (next_codepoint first) SLASH); [contradiction |].
  reflexivity.
Qed.

(** A spelling of the connective is the sign, which is not the case label,
    or the two characters that the connective case accepts. *)
Lemma spells_land_cases (first : TSLexer) :
  spells_land first = true ->
  next_codepoint first = LAND_SIGN \/ takes_land_case first = true.
Proof.
  unfold spells_land, takes_land_case, next_codepoint, lookahead.
  destruct (input first) as [| c rest]; [discriminate |].
  destruct (Z.eqb_spec c LAND_SIGN) as [-> | _]; [now left |].
  cbn [orb]. intros ->. right. apply orb_true_r.
Qed.

Lemma token_column_in_range (lexer : TSLexer) :
  0 <= get_column (at_token lexer) < 32768 ->
  token_column lexer = get_column (at_token lexer).
Proof.
  intros H. apply to_int16_id. unfold int16_range. lia.
Qed.

(** For host columns below 2^15 the measured column is the host's. *)
Lemma land_at_host_column (lexer : TSLexer) :
  spells_land (at_token lexer) = true ->
  0 <= get_column (at_token lexer) < 32768 ->
  land_at lexer (get_column (at_token lexer)).
Proof.
  intros Hland Hrange. split; [exact Hland |].
  now apply token_column_in_range.
Qed.

Lemma some_legal_gate (valid_symbols : TokenType -> bool) :
  some_legal valid_symbols ->
  valid_symbols INDENT || valid_symbols NEWLINE || valid_symbols DEDENT = true.
Proof.
  unfold some_legal, legal. intros [-> | [-> | ->]];
    rewrite ?orb_true_r; reflexivity.
Qed.

(** A call that runs the connective case behind the white space is a call
    of the land handler with the column of the first character. *)
Lemma scan_land (s : Scanner) (lexer : TSLexer)
    (valid_symbols : TokenType -> bool) :
  some_legal valid_symbols ->
  takes_land_case (at_token lexer) = true ->
  scan s lexer valid_symbols
  = handle_land_token s (land_cursor (at_token lexer)) valid_symbols
      (token_column lexer).
Proof.
  intros Hgate Hland. unfold scan.
  rewrite (some_legal_gate _ Hgate), scan_loop_at_token.
  rewrite (takes_land_case_has_next _ Hland). now apply scan_token_land.
Qed.

(** A call that finds a code point other than the case label, and other
    than a slash, is a call of the non-land handler with that character's
    column. *)
Lemma scan_other (s : Scanner) (lexer : TSLexer)
    (valid_symbols : TokenType -> bool) :
  some_legal valid_symbols ->
  has_next (at_token lexer) = true ->
  next_codepoint (at_token lexer) <> LAND_CASE_LABEL ->
  next_codepoint (at_token lexer) <> SLASH ->
  scan s lexer valid_symbols
  = handle_non_land_token s (at_token lexer) valid_symbols
      (token_column lexer).
Proof.
  intros Hgate Hnext Hland Hslash. unfold scan.
  rewrite (some_legal_gate _ Hgate), scan_loop_at_token, Hnext.
  now apply scan_token_other.
Qed.

(** The sign U+2227 is not the case label: a call that finds it runs the
    default case, the non-land handler. *)
Lemma scan_sign (s : Scanner) (lexer : TSLexer)
    (valid_symbols : TokenType -> bool) :
  some_legal valid_symbols ->
  next_codepoint (at_token lexer) = LAND_SIGN ->
  scan s lexer valid_symbols
  = handle_non_land_token s (at_token lexer) valid_symbols
      (token_column lexer).
Proof.
  intros Hgate Hsign. apply scan_other; try assumption.
  - unfold has_next, next_codepoint_is. now rewrite Hsign.
  - rewrite Hsign. discriminate.
  - rewrite Hsign. discriminate.
Qed.

(** A call that finds the connective, in either spelling, is a call of one
    of the two handlers with the measured column. *)
Lemma scan_spelled_land (s : Scanner) (lexer : TSLexer)
    (valid_symbols : TokenType -> bool) :
  some_legal valid_symbols ->
  spells_land (at_token lexer) = true ->
  (next_codepoint (at_token lexer) = LAND_SIGN
   /\ scan s lexer valid_symbols
      = handle_non_land_token s (at_token lexer) valid_symbols
          (token_column lexer))
  \/ (takes_land_case (at_token lexer) = true
      /\ scan s lexer valid_symbols
         = handle_land_token s (land_cursor (at_token lexer)) valid_symbols
             (token_column lexer)).
Proof.
  intros Hgate Hland.
  destruct (spells_land_cases _ Hland) as [Hsign | Hcase].
  - left. split; [exact Hsign | now apply scan_sign].
  - right. split; [exact Hcase | now apply scan_land].
Qed.

(** ** The handlers *)

(** What the land handler hands out and leaves behind does not depend on
    the cursor it is called with. *)
Lemma handle_land_token_cursor (s : Scanner) (lexer lexer' : TSLexer)
    (valid_symbols : TokenType -> bool) (next : column_index) :
  emitted (handle_land_token s lexer valid_symbols next)
  = emitted (handle_land_token s lexer' valid_symbols next)
  /\ scanner_after (handle_land_token s lexer valid_symbols next)
     = scanner_after (handle_land_token s lexer' valid_symbols next).
Proof.
  unfold handle_land_token.
  destruct (get_current_jlist_column_index s <? next).
  - destruct (valid_symbols INDENT); split; reflexivity.
  - destruct (get_current_jlist_column_index s =? next).
    + destruct (valid_symbols NEWLINE); split; reflexivity.
    + destruct (valid_symbols DEDENT); [| split; reflexivity].
      destruct (pop_back s); split; reflexivity.
Qed.

Lemma pop_back_nonempty (s : Scanner) :
  column_indices s <> [] ->
  pop_back s = Some {| column_indices := removelast (column_indices s) |}.
Proof.
  unfold pop_back. destruct (column_indices s); [contradiction | reflexivity].
Qed.

(** A connective left of the current list closes one level. *)
Lemma handle_land_token_close (s : Scanner) (lexer : TSLexer)
    (valid_symbols : TokenType -> bool) (next : column_index) :
  column_indices s <> [] ->
  next < get_current_jlist_column_index s ->
  legal valid_symbols DEDENT ->
  handle_land_token s lexer valid_symbols next
  = Returned true {| column_indices := removelast (column_indices s) |}
      (set_result_symbol lexer DEDENT).
Proof.
  intros Hne Hlt Hdedent. unfold handle_land_token.
  destruct (Z.ltb_spec (get_current_jlist_column_index s) next); [lia |].
  destruct (Z.eqb_spec (get_current_jlist_column_index s) next); [lia |].
  rewrite Hdedent, pop_back_nonempty by assumption. reflexivity.
Qed.

(** Another token at or left of the current list closes one level. *)
Lemma handle_non_land_token_close (s : Scanner) (lexer : TSLexer)
    (valid_symbols : TokenType -> bool) (next : column_index) :
  column_indices s <> [] ->
  next <= get_current_jlist_column_index s ->
  legal valid_symbols DEDENT ->
  handle_non_land_token s lexer valid_symbols next
  = Returned true {| column_indices := removelast (column_indices s) |}
      (set_result_symbol lexer DEDENT).
Proof.
  intros Hne Hle Hdedent. unfold handle_non_land_token.
  destruct (Z.leb_spec next (get_current_jlist_column_index s)); [| lia].
  rewrite Hdedent, pop_back_nonempty by assumption. reflexivity.
Qed.

Lemma handle_land_token_step (s : Scanner) (lexer : TSLexer)
    (valid_symbols : TokenType -> bool) (next : column_index) (s' : Scanner) :
  scanner_after (handle_land_token s lexer valid_symbols next) = Some s' ->
  stack_step s s'.
Proof.
  unfold handle_land_token, stack_step.
  destruct (Z.ltb_spec (get_current_jlist_column_index s) next) as [Hlt | _].
  - destruct (valid_symbols INDENT); cbn [scanner_after]; intros [= <-];
      [right; left; eauto | left; reflexivity].
  - destruct (get_current_jlist_column_index s =? next).
    + destruct (valid_symbols NEWLINE); cbn [scanner_after];
        [intros [= <-]; left; reflexivity | discriminate].
    + destruct (valid_symbols DEDENT); [| discriminate].
      destruct (pop_back s) as [popped |]; cbn [scanner_after];
        [intros [= <-]; right; right; reflexivity | discriminate].
Qed.

Lemma handle_non_land_token_step (s : Scanner) (lexer : TSLexer)
    (valid_symbols : TokenType -> bool) (next : column_index) (s' : Scanner) :
  scanner_after (handle_non_land_token s lexer valid_symbols next) = Some s' ->
  stack_step s s'.
Proof.
  unfold handle_non_land_token, stack_step.
  destruct (next <=? get_current_jlist_column_index s).
  - destruct (valid_symbols DEDENT); [| discriminate].
    destruct (pop_back s) as [popped |]; cbn [scanner_after];
      [intros [= <-]; right; right; reflexivity | discriminate].
  - cbn [scanner_after]. intros [= <-]. left; reflexivity.
Qed.

Lemma scan_token_step (s : Scanner) (lexer : TSLexer)
    (valid_symbols : TokenType -> bool) (s' : Scanner) :
  scanner_after (scan_token s lexer valid_symbols) = Some s' ->
  stack_step s s'.
Proof.
  unfold scan_token.
  destruct (next_codepoint lexer =? LAND_CASE_LABEL);
    [apply handle_land_token_step |].
  destruct (next_codepoint lexer =? SLASH);
    [| apply handle_non_land_token_step].
  destruct (next_codepoint_is (advance (mark_end lexer)) BACKSLASH);
    [apply handle_land_token_step |].
  cbn [scanner_after]. intros [= <-]. left; reflexivity.
Qed.

Lemma scan_step (s : Scanner) (lexer : TSLexer)
    (valid_symbols : TokenType -> bool) (s' : Scanner) :
  scanner_after (scan s lexer valid_symbols) = Some s' ->
  stack_step s s'.
Proof.
  unfold scan.
  destruct (valid_symbols INDENT || valid_symbols NEWLINE
            || valid_symbols DEDENT).
  - rewrite scan_loop_at_token. destruct (has_next (at_token lexer)).
    + apply scan_token_step.
    + cbn [scanner_after]. intros [= <-]. left; reflexivity.
  - cbn [scanner_after]. intros [= <-]. left; reflexivity.
Qed.

Lemma stack_step_increasing (s s' : Scanner) :
  stack_step s s' ->
  increasing (column_indices s) = true ->
  increasing (column_indices s') = true.
Proof.
  intros [-> | [[c [Hlt ->]] | Hpop]] Hinc; [exact Hinc | |].
  - unfold push_back. cbn [column_indices].
    apply increasing_app_last. split; [exact Hinc |].
    unfold get_current_jlist_column_index in Hlt.
    destruct (column_indices s); [left; reflexivity | right; exact Hlt].
  - unfold pop_back in Hpop.
    destruct (column_indices s) as [| c l] eqn:Hv; [discriminate |].
    injection Hpop as <-. cbn [column_indices].
    exact (increasing_removelast (c :: l) Hinc).
Qed.

Lemma stack_step_nonneg (s s' : Scanner) :
  stack_step s s' ->
  Forall (fun c => 0 <= c) (column_indices s) ->
  Forall (fun c => 0 <= c) (column_indices s').
Proof.
  intros [-> | [[c [Hlt ->]] | Hpop]] Hall; [exact Hall | |].
  - unfold push_back. cbn [column_indices].
    apply Forall_app. split; [exact Hall |]. constructor; [| constructor].
    unfold get_current_jlist_column_index in Hlt.
    destruct (column_indices s) as [| a v] eqn:Hv; [lia |].
    rewrite Forall_forall in Hall.
    assert (0 <= last (a :: v) 0).
    { destruct (exists_last (l := a :: v)) as [front [top Heq]];
        [discriminate |].
      rewrite Heq, last_last. apply Hall. rewrite Heq.
      apply in_or_app. right. now left. }
    lia.
  - unfold pop_back in Hpop.
    destruct (column_indices s) as [| a v] eqn:Hv; [discriminate |].
    injection Hpop as <-. cbn [column_indices].
    destruct (exists_last (l := a :: v)) as [front [top Heq]];
      [discriminate |].
    change (Forall (fun c => 0 <= c) (removelast (a :: v))).
    rewrite Heq, removelast_last. rewrite Heq in Hall.
    now apply Forall_app in Hall.
Qed.

Lemma reachable_nonneg (s : Scanner) :
  reachable s -> Forall (fun c => 0 <= c) (column_indices s).
Proof.
  induction 1 as [| s lexer valid_symbols s' _ IH Hafter].
  - constructor.
  - eapply stack_step_nonneg; [eapply scan_step, Hafter | exact IH].
Qed.

Lemma increasing_app_l (a b : list column_index) :
  increasing (a ++ b) = true -> increasing a = true.
Proof.
  induction b as [| c b IH] using rev_ind.
  - now rewrite app_nil_r.
  - rewrite app_assoc. intros H. apply increasing_app_last in H. tauto.
Qed.

Lemma handle_land_token_open (s : Scanner) (lexer : TSLexer)
    (valid_symbols : TokenType -> bool) (next : column_index) :
  get_current_jlist_column_index s < next ->
  legal valid_symbols INDENT ->
  handle_land_token s lexer valid_symbols next
  = Returned true (push_back s next) (set_result_symbol lexer INDENT).
Proof.
  intros Hlt Hindent. unfold handle_land_token.
  destruct (Z.ltb_spec (get_current_jlist_column_index s) next); [| lia].
  now rewrite Hindent.
Qed.

(** Monotonic open, as the code has it: calls that run the connective case
    at increasing columns, from any stack they lie beyond, open one list
    each. *)
Lemma open_calls_from (calls : list (TSLexer * (TokenType -> bool)))
    (cs : list column_index) :
  Forall2 open_case_call calls cs ->
  forall s,
    increasing (column_indices s ++ cs) = true ->
    Forall (fun c => 0 <= c) cs ->
    scan_all s calls
    = Some (map (fun _ => Some INDENT) cs,
            {| column_indices := column_indices s ++ cs |}).
Proof.
  induction 1 as [| [lexer valid_symbols] c calls cs Hcall _ IH];
    intros s Hinc Hpos.
  - cbn [scan_all map]. rewrite app_nil_r. now destruct s.
  - destruct Hcall as [Hindent [Hland Hcol]]. cbn [fst snd] in *.
    inversion Hpos as [| ? ? Hc Hpos']; subst.
    assert (get_current_jlist_column_index s < token_column lexer) as Hlt.
    { unfold get_current_jlist_column_index.
      destruct (column_indices s) as [| a v] eqn:Hv; [lia |].
      change (a :: v) with ([] ++ a :: v) in Hinc.
      replace (([] ++ a :: v) ++ token_column lexer :: cs)
        with (((a :: v) ++ [token_column lexer]) ++ cs) in Hinc
        by (now rewrite <- app_assoc).
      apply increasing_app_l, increasing_app_last in Hinc.
      destruct Hinc as [_ [Hnil | Hlast]]; [discriminate | exact Hlast]. }
    cbn [scan_all].
    rewrite scan_land by (try assumption; left; exact Hindent).
    rewrite handle_land_token_open by assumption.
    cbn [scanner_after emitted result_symbol set_result_symbol].
    rewrite IH.
    + unfold push_back. cbn [column_indices map].
      now rewrite <- app_assoc.
    + unfold push_back. cbn [column_indices]. now rewrite <- app_assoc.
    + assumption.
Qed.

(** ** The claims about [scan] *)

(** C2, as the code has it: when none of the three structural tokens is
    legal, [scan] reads nothing and leaves the stack and the lexer as they
    were, but control then reaches the end of the function, which has no
    [return] statement there: the call does not return [false]. *)
Theorem scan_nothing_legal_no_return (s : Scanner) (lexer : TSLexer)
    (valid_symbols : TokenType -> bool) :
  valid_symbols INDENT = false ->
  valid_symbols NEWLINE = false ->
  valid_symbols DEDENT = false ->
  scan s lexer valid_symbols = NoReturn s lexer
  /\ forall s' lexer', scan s lexer valid_symbols <> Returned false s' lexer'.
Proof.
  intros Hi Hn Hd. unfold scan. rewrite Hi, Hn, Hd. cbn [orb].
  split; [reflexivity | discriminate].
Qed.

Lemma scan_nothing_legal_no_return_witness :
  scan {| column_indices := [2] |} (line 2 [SLASH; BACKSLASH]) none_valid
  = NoReturn {| column_indices := [2] |} (line 2 [SLASH; BACKSLASH]).
Proof.
  apply (scan_nothing_legal_no_return {| column_indices := [2] |}
           (line 2 [SLASH; BACKSLASH]) none_valid); reflexivity.
Defined.

(** C3, at an input where the code departs from it: three calls find the
    connective at the columns 2, 5 and 9, each with list-open legal, the
    second one in the spelling of the sign U+2227. The code point of the
    sign is not the value of the case label, so the second call runs the
    default case and declines: two list-open tokens instead of three, and
    the stack [2; 9] instead of [2; 5; 9]. *)
Theorem sign_does_not_open_list :
  Forall2 open_call
    [(line 2 [SLASH; BACKSLASH; 32; 65], only INDENT);
     (line 5 [LAND_SIGN; 32; 66], all_valid);
     (line 9 [SLASH; BACKSLASH], only INDENT)]
    [2; 5; 9]
  /\ increasing [2; 5; 9] = true
  /\ scan_all create
       [(line 2 [SLASH; BACKSLASH; 32; 65], only INDENT);
        (line 5 [LAND_SIGN; 32; 66], all_valid);
        (line 9 [SLASH; BACKSLASH], only INDENT)]
     = Some ([Some INDENT; None; Some INDENT],
             {| column_indices := [2; 9] |}).
Proof.
  split; [| split; reflexivity].
  repeat constructor.
Qed.

(** Same-column separator, as the code has it: on a non-empty stack, a call
    that runs the connective case at the column on top of the stack, with
    item-separator legal, returns [true] with the item-separator token and
    the stack as it was. *)
Lemma separator_on_land_case (s : Scanner) (lexer : TSLexer)
    (valid_symbols : TokenType -> bool) :
  land_case_at lexer (get_current_jlist_column_index s) ->
  legal valid_symbols NEWLINE ->
  scan s lexer valid_symbols
  = Returned true s
      (set_result_symbol (land_cursor (at_token lexer)) NEWLINE).
Proof.
  intros [Hland Hcol] Hnewline.
  rewrite scan_land by (try assumption; right; left; exact Hnewline).
  unfold handle_land_token.
  now rewrite Hcol, Z.ltb_irrefl, Z.eqb_refl, Hnewline.
Qed.

(** C4, at an input where the code departs from it: the stack is [2] and
    the sign U+2227 stands at column 2. The call runs the default case: with
    item-separator alone legal it stops at the assertion of the non-land
    handler, and with all three tokens legal it hands out list-close and
    pops the stack. No item-separator is handed out. *)
Theorem sign_at_top_column_is_no_separator :
  land_at (line 2 [LAND_SIGN; 32; 66])
    (get_current_jlist_column_index {| column_indices := [2] |})
  /\ scan {| column_indices := [2] |} (line 2 [LAND_SIGN; 32; 66])
       (only NEWLINE)
     = AssertionFailed
  /\ emitted (scan {| column_indices := [2] |} (line 2 [LAND_SIGN; 32; 66])
                all_valid)
     = Some DEDENT
  /\ scanner_after (scan {| column_indices := [2] |}
                      (line 2 [LAND_SIGN; 32; 66]) all_valid)
     = Some create.
Proof.
  repeat split; reflexivity.
Qed.

Lemma spells_other_not_land (first : TSLexer) :
  spells_other first = true -> spells_land first = false.
Proof.
  unfold spells_other. intros H. apply andb_true_iff in H as [H _].
  apply andb_true_iff in H as [_ H]. now apply negb_true_iff in H.
Qed.

Lemma spells_other_has_next (first : TSLexer) :
  spells_other first = true -> has_next first = true.
Proof.
  unfold spells_other. intros H. apply andb_true_iff in H as [H _].
  apply andb_true_iff in H as [H _]. now apply andb_true_iff in H as [H _].
Qed.

Lemma spells_other_not_label (first : TSLexer) :
  spells_other first = true -> next_codepoint first <> LAND_CASE_LABEL.
Proof.
  unfold spells_other, next_codepoint. intros H.
  apply andb_true_iff in H as [_ H]. apply negb_true_iff in H.
  now apply Z.eqb_neq.
Qed.

(** Another token that does not start with a slash is handled by the
    default case. *)
Lemma scan_spelled_other (s : Scanner) (lexer : TSLexer)
    (valid_symbols : TokenType -> bool) :
  some_legal valid_symbols ->
  spells_other (at_token lexer) = true ->
  next_codepoint (at_token lexer) <> SLASH ->
  scan s lexer valid_symbols
  = handle_non_land_token s (at_token lexer) valid_symbols
      (token_column lexer).
Proof.
  intros Hgate Hother Hslash. apply scan_other; try assumption.
  - now apply spells_other_has_next.
  - now apply spells_other_not_label.
Qed.

(** Single-level close, where the code does it: a connective, in either
    spelling, strictly left of the current list. *)
Lemma close_on_land (s : Scanner) (lexer : TSLexer)
    (valid_symbols : TokenType -> bool) (c : column_index) :
  column_indices s <> [] ->
  land_at lexer c ->
  c < get_current_jlist_column_index s ->
  legal valid_symbols DEDENT ->
  exists lexer',
    scan s lexer valid_symbols
    = Returned true {| column_indices := removelast (column_indices s) |}
        (set_result_symbol lexer' DEDENT).
Proof.
  intros Hne [Hland <-] Hlt Hdedent.
  assert (some_legal valid_symbols) as Hgate by (right; right; exact Hdedent).
  destruct (scan_spelled_land s lexer valid_symbols Hgate Hland)
    as [[_ ->] | [_ ->]].
  - exists (at_token lexer). apply handle_non_land_token_close; try assumption.
    lia.
  - exists (land_cursor (at_token lexer)).
    now apply handle_land_token_close.
Qed.

(** Single-level close, where the code does it: a token that does not
    start with a slash, at or left of the current list. *)
Lemma close_on_other (s : Scanner) (lexer : TSLexer)
    (valid_symbols : TokenType -> bool) (c : column_index) :
  column_indices s <> [] ->
  other_at lexer c ->
  next_codepoint (at_token lexer) <> SLASH ->
  c <= get_current_jlist_column_index s ->
  legal valid_symbols DEDENT ->
  scan s lexer valid_symbols
  = Returned true {| column_indices := removelast (column_indices s) |}
      (set_result_symbol (at_token lexer) DEDENT).
Proof.
  intros Hne [Hother <-] Hslash Hle Hdedent.
  rewrite scan_spelled_other; try assumption.
  - now apply handle_non_land_token_close.
  - right; right; exact Hdedent.
Qed.

(** C5, at an input where the code departs from it: with the stack [5] and
    list-close legal, a token that starts with a slash but is not the
    connective (here the two characters slash, equals sign) at column 2 is
    strictly left of the list; [scan] consumes the slash and returns
    [false], handing out no list-close and leaving the stack [5]. *)
Theorem slash_token_left_of_list_not_closed :
  other_at (line 2 [SLASH; 61]) 2
  /\ 2 < get_current_jlist_column_index {| column_indices := [5] |}
  /\ legal all_valid DEDENT
  /\ scan {| column_indices := [5] |} (line 2 [SLASH; 61]) all_valid
     = Returned false {| column_indices := [5] |}
         {| input := [61]; column := 3; position := 3; token_start := 2;
            token_end := Some 2; result_symbol := None |}
  /\ emitted (scan {| column_indices := [5] |} (line 2 [SLASH; 61]) all_valid)
     = None.
Proof.
  repeat split; reflexivity.
Qed.

(** C6 (infix use): when list-open is not legal, the land handler called
    with a column beyond the current one (the top of the stack, or -1 for
    the empty stack) returns [false] and changes nothing; so does every call
    of [scan] that gets as far as the connective, that is, with another
    structural token legal. *)
Theorem infix_land_declined (s : Scanner) (valid_symbols : TokenType -> bool)
    (next : column_index) :
  valid_symbols INDENT = false ->
  get_current_jlist_column_index s < next ->
  (forall lexer,
     handle_land_token s lexer valid_symbols next = Returned false s lexer)
  /\ (forall lexer,
        land_at lexer next ->
        some_legal valid_symbols ->
        exists lexer',
          scan s lexer valid_symbols = Returned false s lexer'
          /\ emitted (scan s lexer valid_symbols) = None
          /\ scanner_after (scan s lexer valid_symbols) = Some s).
Proof.
  intros Hindent Hlt.
  assert (forall lexer,
            handle_land_token s lexer valid_symbols next
            = Returned false s lexer) as Hhandler.
  { intros lexer. unfold handle_land_token.
    destruct (Z.ltb_spec (get_current_jlist_column_index s) next); [| lia].
    now rewrite Hindent. }
  split; [exact Hhandler |].
  intros lexer [Hland <-] Hgate.
  destruct (scan_spelled_land s lexer valid_symbols Hgate Hland)
    as [[_ ->] | [_ ->]].
  - exists (at_token lexer). unfold handle_non_land_token.
    destruct (Z.leb_spec (token_column lexer)
                (get_current_jlist_column_index s)); [lia |].
    repeat split.
  - exists (land_cursor (at_token lexer)). rewrite Hhandler. repeat split.
Qed.

Lemma infix_land_declined_witness :
  exists lexer',
    scan {| column_indices := [2] |}
      (line 6 [SLASH; BACKSLASH; 32; 66]) (only DEDENT)
    = Returned false {| column_indices := [2] |} lexer'.
Proof.
  destruct (infix_land_declined {| column_indices := [2] |} (only DEDENT) 6)
    as [_ Hscan]; [reflexivity | cbn; lia |].
  destruct (Hscan (line 6 [SLASH; BACKSLASH; 32; 66]))
    as [lexer' [Hret _]].
  - split; reflexivity.
  - right; right; reflexivity.
  - exists lexer'. exact Hret.
Defined.

(** The measuring of the column, as the code has it: in the connective case
    the column handed to the land handler is the host's column at the first
    character, read before the slash of the two-character spelling is
    consumed, after which the cursor stands one column further. *)
Lemma land_case_column_of_first_character (s : Scanner) (lexer : TSLexer)
    (valid_symbols : TokenType -> bool) :
  some_legal valid_symbols ->
  takes_land_case (at_token lexer) = true ->
  scan s lexer valid_symbols
  = handle_land_token s (land_cursor (at_token lexer)) valid_symbols
      (to_int16 (get_column (at_token lexer)))
  /\ (next_codepoint (at_token lexer) = SLASH ->
      get_column (land_cursor (at_token lexer))
      = get_column (at_token lexer) + 1).
Proof.
  intros Hgate Hland. split; [now apply scan_land |].
  intros Hslash. unfold land_cursor. rewrite Hslash.
  unfold takes_land_case, next_codepoint, lookahead in *.
  destruct (input (at_token lexer)) as [| c rest] eqn:Hin; [discriminate |].
  subst c. change (SLASH =? LAND_CASE_LABEL) with false. cbv iota.
  unfold advance, lexer_advance, mark_end, get_column. cbn [input column].
  rewrite Hin. reflexivity.
Qed.


(** C9: on the empty stack the current list column is the sentinel -1,
    which lies below every column from 0 on and below every column a
    scanner ever holds; on a non-empty stack it is the last element, the
    innermost list's column. *)
Theorem current_column_or_sentinel (s : Scanner) :
  (column_indices s = [] ->
   get_current_jlist_column_index s = -1
   /\ (forall c, 0 <= c -> get_current_jlist_column_index s < c)
   /\ (forall s' c,
         reachable s' -> In c (column_indices s') ->
         get_current_jlist_column_index s < c))
  /\ (forall v c,
        column_indices s = v ++ [c] -> get_current_jlist_column_index s = c).
Proof.
  unfold get_current_jlist_column_index. split.
  - intros ->. split; [reflexivity |]. split; [intros; lia |].
    intros s' c Hreach Hin.
    pose proof (reachable_nonneg s' Hreach) as Hall.
    rewrite Forall_forall in Hall. specialize (Hall c Hin). lia.
  - intros v c ->. destruct (v ++ [c]) eqn:E.
    + now destruct v.
    + rewrite <- E. apply last_last.
Qed.

Lemma current_column_or_sentinel_witness :
  get_current_jlist_column_index create = -1
  /\ get_current_jlist_column_index {| column_indices := [2; 5] |} = 5.
Proof.
  split.
  - apply (current_column_or_sentinel create). reflexivity.
  - apply (current_column_or_sentinel {| column_indices := [2; 5] |}) with
      (v := [2]). reflexivity.
Defined.

(** C10: every scanner state reached from the empty stack by calls of
    [scan] has a stack that increases strictly from bottom to top; a call
    changes the stack by nothing, by one push of a column beyond the current
    one (the top, or -1 for the empty stack), or by one pop, and each of
    these keeps the order. *)
Theorem reachable_increasing (s : Scanner) :
  reachable s ->
  increasing (column_indices s) = true
  /\ (forall lexer valid_symbols s',
        scanner_after (scan s lexer valid_symbols) = Some s' ->
        stack_step s s' /\ increasing (column_indices s') = true).
Proof.
  intros Hreach.
  assert (increasing (column_indices s) = true) as Hinc.
  { induction Hreach as [| s lexer valid_symbols s' _ IH Hafter];
      [reflexivity |].
    eapply stack_step_increasing; [eapply scan_step, Hafter | exact IH]. }
  split; [exact Hinc |].
  intros lexer valid_symbols s' Hafter.
  pose proof (scan_step _ _ _ _ Hafter) as Hstep.
  split; [exact Hstep |]. now apply (stack_step_increasing s).
Qed.

Lemma reachable_increasing_witness :
  reachable {| column_indices := [2; 5] |}
  /\ increasing [2; 5] = true.
Proof.
  assert (reachable {| column_indices := [2; 5] |}) as Hreach.
  { apply (reachable_scan {| column_indices := [2] |}
             (line 5 [SLASH; BACKSLASH]) (only INDENT)); [| reflexivity].
    apply (reachable_scan create (line 2 [SLASH; BACKSLASH]) (only INDENT));
      [constructor | reflexivity]. }
  split; [exact Hreach |].
  exact (proj1 (reachable_increasing {| column_indices := [2; 5] |} Hreach)).
Defined.

(** * Further properties of the code *)

(** ** The codec beyond the wire format *)

Lemma columns_of_bytes_range (order : ByteOrder) (bytes : list Z) :
  Forall int16_range (columns_of_bytes order bytes).
Proof.
  remember (length bytes) as n eqn:Hn.
  revert bytes Hn. induction n as [n IH] using lt_wf_ind. intros bytes Hn.
  destruct bytes as [| b0 [| b1 rest]]; try constructor.
  - destruct order; apply to_int16_range.
  - apply (IH (length rest)); [cbn [length] in Hn; lia | reflexivity].
Qed.

Lemma length_columns_of_bytes (order : ByteOrder) (bytes : list Z) (k : nat) :
  length bytes = (2 * k)%nat -> length (columns_of_bytes order bytes) = k.
Proof.
  revert bytes. induction k as [| k IH]; intros bytes Hlen.
  - now destruct bytes.
  - destruct bytes as [| b0 [| b1 rest]]; cbn [length] in Hlen; try lia.
    cbn [columns_of_bytes length]. rewrite IH; [reflexivity | lia].
Qed.

Lemma column_bytes_column_of_bytes (order : ByteOrder) (b0 b1 : Z) :
  byte_range b0 -> byte_range b1 ->
  column_bytes order (column_of_bytes order b0 b1) = [b0; b1].
Proof.
  unfold byte_range. intros H0 H1.
  assert (forall u, 0 <= u < 65536 -> to_int16 u mod 65536 = u) as Hwrap.
  { intros u Hu. unfold to_int16.
    rewrite Zminus_mod, Zmod_mod, <- Zminus_mod.
    replace (u + 32768 - 32768) with u by lia. apply Z.mod_small. lia. }
  destruct order; unfold column_bytes, column_of_bytes;
    rewrite Hwrap by lia.
  - replace (b0 + 256 * b1) with (b0 + b1 * 256) by lia.
    rewrite Z.mod_add, Z.div_add, Z.mod_small, Z.div_small by lia.
    reflexivity.
  - replace (256 * b0 + b1) with (b1 + b0 * 256) by lia.
    rewrite Z.mod_add, Z.div_add, Z.mod_small, Z.div_small by lia.
    reflexivity.
Qed.

Lemma data_bytes_columns_of_bytes (order : ByteOrder) (bytes : list Z)
    (k : nat) :
  length bytes = (2 * k)%nat ->
  Forall byte_range bytes ->
  data_bytes order (columns_of_bytes order bytes) = bytes.
Proof.
  revert bytes. induction k as [| k IH]; intros bytes Hlen Hrange.
  - now destruct bytes.
  - destruct bytes as [| b0 [| b1 rest]]; cbn [length] in Hlen; try lia.
    inversion Hrange as [| ? ? H0 Htl]; subst.
    inversion Htl as [| ? ? H1 Hrest]; subst.
    unfold data_bytes in *. cbn [columns_of_bytes flat_map].
    rewrite column_bytes_column_of_bytes by assumption.
    rewrite IH; [reflexivity | lia | assumption].
Qed.

(** What [deserialize] makes of a buffer whose depth byte is not zero. *)
Lemma deserialize_result (order : ByteOrder) (prior : Scanner)
    (buffer : list Z) (n b0 : Z) :
  0 < n ->
  nth_error buffer 0 = Some b0 ->
  0 < to_uint8 b0 ->
  (1 + 2 * Z.to_nat (to_uint8 b0) <= length buffer)%nat ->
  deserialize order prior buffer n
  = Ok {| column_indices :=
            columns_of_bytes order (payload buffer (to_uint8 b0)) |}.
Proof.
  intros Hn Hb0 Hdepth Hroom. unfold deserialize, payload.
  destruct (Z.ltb_spec 0 n); [| lia]. rewrite Hb0.
  destruct (Z.ltb_spec 0 (to_uint8 b0)); [| lia].
  unfold sizeof_column_index, load. change (Z.to_nat 1) with 1%nat.
  set (d := Z.to_nat (to_uint8 b0)) in *.
  replace (Z.to_nat (to_uint8 b0 * 2)) with (2 * d)%nat by (subst d; lia).
  destruct (Nat.leb_spec (1 + 2 * d) (length buffer)); [| lia].
  assert (length (firstn (2 * d) (skipn 1 buffer)) = (2 * d)%nat) as Hlen
    by (rewrite length_firstn, length_skipn; lia).
  unfold store. rewrite Hlen, length_data_bytes, length_resize.
  destruct (Nat.leb_spec (0 + 2 * d) (2 * d)); [| lia].
  cbn [firstn app Nat.add].
  rewrite skipn_all2 with (l := data_bytes order (resize d (column_indices prior)))
    by (rewrite length_data_bytes, length_resize; lia).
  now rewrite app_nil_r.
Qed.

(** X1 (round trip, where the code has it): a stack within capacity that
    is serialized and read back is restored exactly, whenever it is not
    empty or the scanner that reads it holds the empty stack. *)
Theorem snapshot_roundtrip (order : ByteOrder) (prior s : Scanner)
    (buffer : list Z) :
  column_indices s <> [] \/ column_indices prior = [] ->
  Z.of_nat (length (column_indices s)) <= UINT8_MAX ->
  Forall int16_range (column_indices s) ->
  (1 + 2 * length (column_indices s) <= length buffer)%nat ->
  exists buffer' n,
    serialize order s buffer = Ok (buffer', n)
    /\ deserialize order prior buffer' n = Ok s.
Proof.
  intros Hcase Hdepth Hcols Hroom.
  eexists. eexists. split; [apply serialize_result; assumption |].
  destruct (column_indices s) as [| c v] eqn:Hv.
  - destruct Hcase as [Hne | Hprior]; [contradiction |].
    cbn [length data_bytes flat_map app]. rewrite deserialize_depth_zero.
    destruct prior, s. cbn in *. now subst.
  - rewrite <- Hv in *. rewrite deserialize_snapshot; try assumption.
    + now destruct s.
    + rewrite Hv. discriminate.
Qed.

Lemma snapshot_roundtrip_witness :
  exists buffer' n,
    serialize BigEndian {| column_indices := [2; 300] |} (repeat 7 8)
    = Ok (buffer', n)
    /\ deserialize BigEndian {| column_indices := [1; 4; 9] |} buffer' n
       = Ok {| column_indices := [2; 300] |}.
Proof.
  apply (snapshot_roundtrip BigEndian {| column_indices := [1; 4; 9] |}
           {| column_indices := [2; 300] |} (repeat 7 8)).
  - left. discriminate.
  - unfold UINT8_MAX. cbn. lia.
  - repeat constructor; unfold int16_range; lia.
  - cbn. lia.
Defined.

(** X2: [serialize] stops at its assertion exactly when the stack is
    deeper than 255, whatever the buffer. *)
Theorem serialize_asserts_iff_too_deep (order : ByteOrder) (s : Scanner)
    (buffer : list Z) :
  serialize order s buffer = AssertFailed
  <-> UINT8_MAX < Z.of_nat (length (column_indices s)).
Proof.
  unfold serialize.
  destruct (Z.leb_spec (Z.of_nat (length (column_indices s))) UINT8_MAX)
    as [Hle | Hgt].
  - split; [| lia]. intros H.
    destruct (store buffer 0 _) as [buffer0 |]; [| discriminate].
    destruct (0 <? Z.of_nat (length (column_indices s)));
      [| discriminate].
    destruct (store buffer0 _ _); discriminate.
  - split; [intros _; exact Hgt | reflexivity].
Qed.

Lemma serialize_asserts_iff_too_deep_witness :
  serialize LittleEndian (ramp 256) (repeat 0 1024) = AssertFailed.
Proof.
  apply (serialize_asserts_iff_too_deep LittleEndian (ramp 256)
           (repeat 0 1024)).
  unfold ramp. cbn [column_indices].
  rewrite length_map, length_seq. unfold UINT8_MAX. lia.
Defined.

(** X3: a snapshot whose depth byte [N] is not zero replaces the stack
    whatever the scanner held and whatever positive length is passed: the
    new stack is the [N] columns read from the [2 * N] bytes behind the
    depth byte, each an [int16_t]; the length argument is not compared with
    [N]. *)
Theorem deserialize_overwrites (order : ByteOrder) (prior : Scanner)
    (buffer : list Z) (n b0 : Z) :
  0 < n ->
  nth_error buffer 0 = Some b0 ->
  0 < to_uint8 b0 ->
  (1 + 2 * Z.to_nat (to_uint8 b0) <= length buffer)%nat ->
  exists s,
    deserialize order prior buffer n = Ok s
    /\ column_indices s
       = columns_of_bytes order (payload buffer (to_uint8 b0))
    /\ Z.of_nat (length (column_indices s)) = to_uint8 b0
    /\ Forall int16_range (column_indices s)
    /\ forall prior' n',
         0 < n' -> deserialize order prior' buffer n' = Ok s.
Proof.
  intros Hn Hb0 Hdepth Hroom.
  eexists. split; [now apply (deserialize_result order prior buffer n b0) |].
  cbn [column_indices]. split; [reflexivity |]. split; [| split].
  - rewrite (length_columns_of_bytes order _ (Z.to_nat (to_uint8 b0))); [lia |].
    unfold payload, sizeof_column_index.
    rewrite length_firstn, length_skipn. lia.
  - apply columns_of_bytes_range.
  - intros prior' n' Hn'.
    now apply (deserialize_result order prior' buffer n' b0).
Qed.

Lemma deserialize_overwrites_witness :
  exists s,
    deserialize LittleEndian {| column_indices := [7; 8; 9] |}
      [2; 2; 0; 253; 255; 66] 1 = Ok s
    /\ column_indices s = [2; -3].
Proof.
  destruct (deserialize_overwrites LittleEndian
              {| column_indices := [7; 8; 9] |} [2; 2; 0; 253; 255; 66] 1 2)
    as [s [Hdes [Hcols _]]].
  - lia.
  - reflexivity.
  - reflexivity.
  - cbn. lia.
  - exists s. split; [exact Hdes | exact Hcols].
Defined.

(** X4: [deserialize] never checks the buffer against the depth byte: when
    fewer than [2 * N] bytes stand behind a depth byte [N > 0], the copy
    reads past the end of the buffer. *)
Theorem deserialize_reads_past_short_buffer (order : ByteOrder)
    (prior : Scanner) (buffer : list Z) (n b0 : Z) :
  0 < n ->
  nth_error buffer 0 = Some b0 ->
  0 < to_uint8 b0 ->
  (length buffer < 1 + 2 * Z.to_nat (to_uint8 b0))%nat ->
  deserialize order prior buffer n = OutOfBounds.
Proof.
  intros Hn Hb0 Hdepth Hshort. unfold deserialize.
  destruct (Z.ltb_spec 0 n); [| lia]. rewrite Hb0.
  destruct (Z.ltb_spec 0 (to_uint8 b0)); [| lia].
  unfold sizeof_column_index, load. change (Z.to_nat 1) with 1%nat.
  replace (Z.to_nat (to_uint8 b0 * 2)) with (2 * Z.to_nat (to_uint8 b0))%nat
    by lia.
  destruct (Nat.leb_spec (1 + 2 * Z.to_nat (to_uint8 b0)) (length buffer));
    [lia | reflexivity].
Qed.

Lemma deserialize_reads_past_short_buffer_witness :
  deserialize LittleEndian create [3; 2; 0; 5; 0] 5 = OutOfBounds.
Proof.
  apply (deserialize_reads_past_short_buffer LittleEndian create
           [3; 2; 0; 5; 0] 5 3).
  - lia.
  - reflexivity.
  - reflexivity.
  - cbn. lia.
Defined.

Lemma Forall_take {A : Type} (P : A -> Prop) (n : nat) (l : list A) :
  Forall P l -> Forall P (firstn n l).
Proof.
  intros H. rewrite <- (firstn_skipn n l) in H.
  now apply Forall_app in H.
Qed.

Lemma Ok_pair_inj {A B : Type} (a c : A) (b d : B) :
  Ok (a, b) = Ok (c, d) -> a = c /\ b = d.
Proof. intros H. injection H. auto. Qed.

Lemma cons_inj_tail {A : Type} (x y : A) (l m : list A) :
  x :: l = y :: m -> l = m.
Proof. intros H. now injection H. Qed.

(** X5: distinct stacks have distinct snapshots: two stacks within
    capacity that serialize to the same bytes are the same stack. *)
Theorem serialize_injective (order : ByteOrder) (s1 s2 : Scanner)
    (buffer snapshot : list Z) (n : Z) :
  Forall int16_range (column_indices s1) ->
  Forall int16_range (column_indices s2) ->
  (1 + 2 * length (column_indices s1) <= length buffer)%nat ->
  (1 + 2 * length (column_indices s2) <= length buffer)%nat ->
  serialize order s1 buffer = Ok (snapshot, n) ->
  serialize order s2 buffer = Ok (snapshot, n) ->
  s1 = s2.
Proof.
  intros Hc1 Hc2 Hr1 Hr2 Hs1 Hs2.
  assert (forall s, serialize order s buffer = Ok (snapshot, n) ->
                    Z.of_nat (length (column_indices s)) <= UINT8_MAX)
    as Hcap.
  { intros s Hs. unfold serialize in Hs.
    destruct (Z.leb_spec (Z.of_nat (length (column_indices s))) UINT8_MAX);
      [assumption | discriminate]. }
  rewrite serialize_result in Hs1 by auto.
  rewrite serialize_result in Hs2 by auto.
  apply Ok_pair_inj in Hs1 as [Hb1 Hn1]. apply Ok_pair_inj in Hs2 as [Hb2 Hn2].
  assert (length (column_indices s1) = length (column_indices s2)) as Hlen
    by lia.
  rewrite <- Hb2, Hlen in Hb1. apply cons_inj_tail in Hb1 as Hdata.
  apply app_inv_tail in Hdata.
  apply (f_equal (columns_of_bytes order)) in Hdata.
  rewrite !columns_of_data_bytes in Hdata by assumption.
  destruct s1, s2. cbn in Hdata. now subst.
Qed.

Lemma serialize_injective_witness :
  {| column_indices := [2; 5] |} = {| column_indices := [2; 5] |}.
Proof.
  apply (serialize_injective LittleEndian {| column_indices := [2; 5] |}
           {| column_indices := [2; 5] |} (repeat 0 6) [2; 2; 0; 5; 0; 0] 5).
  - repeat constructor; unfold int16_range; lia.
  - repeat constructor; unfold int16_range; lia.
  - cbn. lia.
  - cbn. lia.
  - reflexivity.
  - reflexivity.
Defined.

(** X6 (round trip the other way): reading a snapshot with depth byte
    [1 <= N <= 255] and serializing the scanner again into the same buffer
    writes back the bytes that were there: the buffer is unchanged and the
    count is [1 + 2 * N]. *)
Theorem deserialize_then_serialize (order : ByteOrder) (prior : Scanner)
    (buffer : list Z) (n b0 : Z) :
  0 < n ->
  nth_error buffer 0 = Some b0 ->
  1 <= b0 <= 255 ->
  Forall byte_range buffer ->
  (1 + 2 * Z.to_nat b0 <= length buffer)%nat ->
  exists s,
    deserialize order prior buffer n = Ok s
    /\ serialize order s buffer = Ok (buffer, 1 + 2 * b0).
Proof.
  intros Hn Hb0 Hrange Hbytes Hroom.
  assert (to_uint8 b0 = b0) as Hu
    by (apply to_uint8_id; unfold byte_range; lia).
  eexists. split.
  - apply (deserialize_result order prior buffer n b0); rewrite ?Hu;
      try assumption; lia.
  - rewrite Hu.
    assert (length (payload buffer b0) = (2 * Z.to_nat b0)%nat) as Hlen.
    { unfold payload, sizeof_column_index.
      rewrite length_firstn, length_skipn. lia. }
    assert (length (columns_of_bytes order (payload buffer b0)) = Z.to_nat b0)
      as Hdepth by (now apply length_columns_of_bytes).
    rewrite serialize_result; cbn [column_indices]; rewrite ?Hdepth;
      unfold UINT8_MAX; try lia.
    rewrite (data_bytes_columns_of_bytes order _ (Z.to_nat b0)); try assumption.
    + rewrite Z2Nat.id by lia. f_equal. f_equal.
      destruct buffer as [| b buffer]; [discriminate |].
      injection Hb0 as ->. f_equal.
      unfold payload, sizeof_column_index. cbn [skipn Nat.add].
      replace (Z.to_nat (b0 * 2)) with (2 * Z.to_nat b0)%nat by lia.
      apply firstn_skipn.
    + unfold payload. apply Forall_take.
      destruct buffer as [| b buffer]; [discriminate |].
      now inversion Hbytes.
Qed.

Lemma deserialize_then_serialize_witness :
  exists s,
    deserialize BigEndian create [2; 0; 2; 255; 253; 66] 5 = Ok s
    /\ serialize BigEndian s [2; 0; 2; 255; 253; 66]
       = Ok ([2; 0; 2; 255; 253; 66], 5).
Proof.
  apply (deserialize_then_serialize BigEndian create
           [2; 0; 2; 255; 253; 66] 5 2).
  - lia.
  - reflexivity.
  - lia.
  - repeat constructor; unfold byte_range; lia.
  - cbn. lia.
Defined.

(** ** The scan procedure beyond the claims *)

Lemma at_token_idem (lexer : TSLexer) :
  at_token (at_token lexer) = at_token lexer.
Proof.
  rewrite (at_token_unfold (at_token lexer)).
  now rewrite at_token_not_space.
Qed.

Lemma scan_token_slash (s : Scanner) (first : TSLexer)
    (valid_symbols : TokenType -> bool) :
  next_codepoint first = SLASH ->
  takes_land_case first = false ->
  scan_token s first valid_symbols
  = Returned false s (advance (mark_end first)).
Proof.
  unfold scan_token, takes_land_case, next_codepoint, lookahead.
  destruct (input first) as [| c rest] eqn:Hin; [discriminate |].
  intros ->. change (SLASH =? LAND_CASE_LABEL) with false.
  rewrite Z.eqb_refl. cbn [orb andb].
  unfold next_codepoint_is, next_codepoint, lookahead, advance, lexer_advance,
    mark_end. cbn [input]. rewrite Hin. cbn [input].
  destruct rest as [| d rest]; [reflexivity |].
  intros Hd. now rewrite Z.eqb_sym, Hd.
Qed.

(** At a slash, both notions of the connective ask for the backslash. *)
Lemma slash_spells_land_iff_case (first : TSLexer) :
  next_codepoint first = SLASH ->
  takes_land_case first = spells_land first.
Proof.
  unfold takes_land_case, spells_land, next_codepoint, lookahead.
  destruct (input first) as [| c rest]; [discriminate |].
  now intros ->.
Qed.

Lemma takes_default_case_inv (first : TSLexer) :
  takes_default_case first = true ->
  has_next first = true
  /\ next_codepoint first <> LAND_CASE_LABEL
  /\ next_codepoint first <> SLASH.
Proof.
  unfold takes_default_case. intros H.
  apply andb_true_iff in H as [H Hslash].
  apply andb_true_iff in H as [H Hlabel].
  apply andb_true_iff in H as [Hnext _].
  apply negb_true_iff, Z.eqb_neq in Hslash, Hlabel. auto.
Qed.

Lemma spells_other_default_case (first : TSLexer) :
  spells_other first = true ->
  next_codepoint first <> SLASH ->
  takes_default_case first = true.
Proof.
  unfold spells_other, takes_default_case, next_codepoint. intros H Hslash.
  apply andb_true_iff in H as [H Hlabel].
  apply andb_true_iff in H as [H _].
  rewrite H, Hlabel. apply Z.eqb_neq in Hslash. now rewrite Hslash.
Qed.

(** The four ways a call that passes the gate can go: the end of the
    input, the connective case, a slash without a backslash, the default
    case. *)
Lemma scan_cases (s : Scanner) (lexer : TSLexer)
    (valid_symbols : TokenType -> bool) :
  some_legal valid_symbols ->
  (has_next (at_token lexer) = false
   /\ scan s lexer valid_symbols = NoReturn s (at_token lexer))
  \/ (takes_land_case (at_token lexer) = true
      /\ scan s lexer valid_symbols
         = handle_land_token s (land_cursor (at_token lexer)) valid_symbols
             (token_column lexer))
  \/ (next_codepoint (at_token lexer) = SLASH
      /\ takes_land_case (at_token lexer) = false
      /\ scan s lexer valid_symbols
         = Returned false s (advance (mark_end (at_token lexer))))
  \/ (takes_default_case (at_token lexer) = true
      /\ scan s lexer valid_symbols
         = handle_non_land_token s (at_token lexer) valid_symbols
             (token_column lexer)).
Proof.
  intros Hgate.
  destruct (has_next (at_token lexer)) eqn:Hnext.
  - right. destruct (takes_land_case (at_token lexer)) eqn:Hland.
    + left. split; [reflexivity |]. now apply scan_land.
    + right.
      destruct (Z.eq_dec (next_codepoint (at_token lexer)) SLASH)
        as [Hslash | Hslash].
      * left. repeat split; try assumption.
        unfold scan.
        rewrite (some_legal_gate _ Hgate), scan_loop_at_token, Hnext.
        now apply scan_token_slash.
      * right.
        assert (next_codepoint (at_token lexer) <> LAND_CASE_LABEL)
          as Hlabel.
        { unfold takes_land_case, has_next, next_codepoint_is,
            next_codepoint, lookahead in *.
          destruct (input (at_token lexer)) as [| c rest]; [discriminate |].
          intros ->. now rewrite Z.eqb_refl in Hland. }
        split; [| now apply scan_other].
        unfold takes_default_case.
        rewrite Hnext, at_token_not_space.
        apply Z.eqb_neq in Hlabel, Hslash. now rewrite Hlabel, Hslash.
  - left. split; [reflexivity |]. unfold scan.
    now rewrite (some_legal_gate _ Hgate), scan_loop_at_token, Hnext.
Qed.

(** X7: leading white space never changes what a call comes to: the call
    is the call made with the cursor already at the first character behind
    the white space. *)
Theorem scan_ignores_leading_spaces (s : Scanner) (lexer : TSLexer)
    (valid_symbols : TokenType -> bool) :
  some_legal valid_symbols ->
  scan s lexer valid_symbols = scan s (at_token lexer) valid_symbols.
Proof.
  intros Hgate. unfold scan.
  rewrite (some_legal_gate _ Hgate), !scan_loop_at_token.
  now rewrite at_token_idem.
Qed.

Lemma scan_ignores_leading_spaces_witness :
  scan {| column_indices := [2] |} (line 2 [SLASH; BACKSLASH]) all_valid
  = scan {| column_indices := [2] |}
      (at_token (line 2 [SLASH; BACKSLASH])) all_valid.
Proof.
  apply (scan_ignores_leading_spaces {| column_indices := [2] |}
           (line 2 [SLASH; BACKSLASH]) all_valid).
  left; reflexivity.
Defined.

Lemma gate_some_legal (valid_symbols : TokenType -> bool) :
  valid_symbols INDENT || valid_symbols NEWLINE || valid_symbols DEDENT = true ->
  some_legal valid_symbols.
Proof.
  unfold some_legal, legal.
  destruct (valid_symbols INDENT); [auto |].
  destruct (valid_symbols NEWLINE); [auto |].
  destruct (valid_symbols DEDENT); [auto | discriminate].
Qed.

Lemma skip_spaces_all (pending : list Z) (lexer : TSLexer) :
  input lexer = pending ->
  Forall (fun c => is_space c = true) pending ->
  input (skip_spaces pending lexer) = []
  /\ position (skip_spaces pending lexer)
     = position lexer + Z.of_nat (length pending)
  /\ token_end (skip_spaces pending lexer) = token_end lexer.
Proof.
  revert lexer. induction pending as [| c pending IH]; intros lexer Hin Hall.
  - cbn [skip_spaces length]. rewrite Hin. repeat split. lia.
  - inversion Hall as [| ? ? Hc Hrest]; subst.
    cbn [skip_spaces]. rewrite Hc.
    assert (input (skip lexer) = pending
            /\ position (skip lexer) = position lexer + 1
            /\ token_end (skip lexer) = token_end lexer) as [Hi [Hp He]]
      by (unfold skip, lexer_advance; rewrite Hin; repeat split).
    destruct (IH (skip lexer) Hi Hrest) as [H1 [H2 H3]].
    rewrite H1, H2, H3, Hp, He. repeat split. cbn [length]. lia.
Qed.

Lemma skip_spaces_token_end (pending : list Z) (lexer : TSLexer) :
  input lexer = pending ->
  token_end (skip_spaces pending lexer) = token_end lexer
  /\ result_symbol (skip_spaces pending lexer) = result_symbol lexer.
Proof.
  revert lexer. induction pending as [| c pending IH]; intros lexer Hin.
  - split; reflexivity.
  - cbn [skip_spaces]. destruct (is_space c); [| split; reflexivity].
    assert (input (skip lexer) = pending
            /\ token_end (skip lexer) = token_end lexer
            /\ result_symbol (skip lexer) = result_symbol lexer)
      as [Hi [He Hr]]
      by (unfold skip, lexer_advance; rewrite Hin; repeat split).
    destruct (IH (skip lexer) Hi) as [H1 H2]. now rewrite H1, H2, He, Hr.
Qed.

(** X8 (end of input): when only white space, or nothing, is left in front
    of the cursor, a call that passes the gate skips all of it and then
    leaves the loop and the function without a [return] statement; the stack
    is unchanged. *)
Theorem scan_at_end_of_input (s : Scanner) (lexer : TSLexer)
    (valid_symbols : TokenType -> bool) :
  some_legal valid_symbols ->
  Forall (fun c => is_space c = true) (input lexer) ->
  exists lexer',
    scan s lexer valid_symbols = NoReturn s lexer'
    /\ input lexer' = []
    /\ position lexer' = position lexer + Z.of_nat (length (input lexer))
    /\ token_end lexer' = token_end lexer.
Proof.
  intros Hgate Hall. exists (at_token lexer).
  destruct (skip_spaces_all (input lexer) lexer eq_refl Hall)
    as [Hin [Hpos Hend]].
  fold (at_token lexer) in Hin, Hpos, Hend.
  split; [| auto]. unfold scan.
  rewrite (some_legal_gate _ Hgate), scan_loop_at_token.
  unfold has_next, next_codepoint_is, next_codepoint, lookahead.
  now rewrite Hin.
Qed.

Lemma scan_at_end_of_input_witness :
  exists lexer',
    scan {| column_indices := [2] |} (line 3 [LF; TAB]) all_valid
    = NoReturn {| column_indices := [2] |} lexer'
    /\ input lexer' = [].
Proof.
  destruct (scan_at_end_of_input {| column_indices := [2] |}
              (line 3 [LF; TAB]) all_valid)
    as [lexer' [Hscan [Hin _]]].
  - left; reflexivity.
  - repeat constructor.
  - exists lexer'. split; [exact Hscan | exact Hin].
Defined.

Lemma handle_land_token_effect (s : Scanner) (lexer : TSLexer)
    (valid_symbols : TokenType -> bool) (next : column_index) :
  token_effect s next (handle_land_token s lexer valid_symbols next)
  /\ forall t,
       emitted (handle_land_token s lexer valid_symbols next) = Some t ->
       legal valid_symbols t.
Proof.
  unfold token_effect, handle_land_token, legal.
  destruct (Z.ltb_spec (get_current_jlist_column_index s) next).
  - destruct (valid_symbols INDENT) eqn:Hv; cbn.
    + split; [auto |]. now intros t [= <-].
    + split; [auto | discriminate].
  - destruct (Z.eqb_spec (get_current_jlist_column_index s) next).
    + destruct (valid_symbols NEWLINE) eqn:Hv; cbn.
      * split; [auto |]. now intros t [= <-].
      * split; [auto | discriminate].
    + destruct (valid_symbols DEDENT) eqn:Hv; cbn;
        [| split; [auto | discriminate]].
      destruct (pop_back s) as [popped |] eqn:Hpop; cbn.
      * split; [split; [lia | eauto] |]. now intros t [= <-].
      * split; [auto | discriminate].
Qed.

Lemma handle_non_land_token_effect (s : Scanner) (lexer : TSLexer)
    (valid_symbols : TokenType -> bool) (next : column_index) :
  token_effect s next (handle_non_land_token s lexer valid_symbols next)
  /\ forall t,
       emitted (handle_non_land_token s lexer valid_symbols next) = Some t ->
       legal valid_symbols t.
Proof.
  unfold token_effect, handle_non_land_token, legal.
  destruct (Z.leb_spec next (get_current_jlist_column_index s)).
  - destruct (valid_symbols DEDENT) eqn:Hv; cbn;
      [| split; [auto | discriminate]].
    destruct (pop_back s) as [popped |] eqn:Hpop; cbn.
    + split; [split; [lia | eauto] |]. now intros t [= <-].
    + split; [auto | discriminate].
  - cbn. split; [auto | discriminate].
Qed.

Lemma scan_effect (s : Scanner) (lexer : TSLexer)
    (valid_symbols : TokenType -> bool) :
  token_effect s (token_column lexer) (scan s lexer valid_symbols)
  /\ forall t,
       emitted (scan s lexer valid_symbols) = Some t -> legal valid_symbols t.
Proof.
  destruct (valid_symbols INDENT || valid_symbols NEWLINE
            || valid_symbols DEDENT) eqn:Hgate.
  - destruct (scan_cases s lexer valid_symbols (gate_some_legal _ Hgate))
      as [[_ ->] | [[_ ->] | [[_ [_ ->]] | [_ ->]]]].
    + unfold token_effect. cbn. split; [auto | discriminate].
    + apply handle_land_token_effect.
    + unfold token_effect. cbn. split; [auto | discriminate].
    + apply handle_non_land_token_effect.
  - unfold scan. rewrite Hgate. unfold token_effect. cbn.
    split; [auto | discriminate].
Qed.

(** X9: a call never hands out a token that is not legal: whatever the
    stack and the input, an emitted token is one of those marked in
    [valid_symbols]. *)
Theorem scan_emits_only_legal (s : Scanner) (lexer : TSLexer)
    (valid_symbols : TokenType -> bool) (t : TokenType) :
  emitted (scan s lexer valid_symbols) = Some t ->
  valid_symbols t = true.
Proof. apply scan_effect. Qed.

Lemma scan_emits_only_legal_witness :
  only INDENT INDENT = true.
Proof.
  apply (scan_emits_only_legal create (line 2 [SLASH; BACKSLASH])
           (only INDENT) INDENT).
  reflexivity.
Defined.

(** X10: the token handed out tells the change of the stack. With
    list-open the measured column, which lies beyond the current one, has
    been pushed; with item-separator the measured column is the current one
    and the stack is as before; with list-close the measured column is at
    or left of the current one and exactly the top element is gone; with no
    token a call that finishes leaves the stack as it was. *)
Theorem scan_token_tells_stack_change (s : Scanner) (lexer : TSLexer)
    (valid_symbols : TokenType -> bool) :
  let o := scan s lexer valid_symbols in
  let next := token_column lexer in
  (emitted o = Some INDENT ->
   get_current_jlist_column_index s < next
   /\ scanner_after o = Some (push_back s next))
  /\ (emitted o = Some NEWLINE ->
      get_current_jlist_column_index s = next /\ scanner_after o = Some s)
  /\ (emitted o = Some DEDENT ->
      next <= get_current_jlist_column_index s
      /\ column_indices s <> []
      /\ scanner_after o
         = Some {| column_indices := removelast (column_indices s) |})
  /\ (emitted o = None ->
      forall s', scanner_after o = Some s' -> s' = s).
Proof.
  intros o next.
  pose proof (proj1 (scan_effect s lexer valid_symbols)) as Heff.
  fold o next in Heff. unfold token_effect in Heff.
  split; [| split; [| split]]; intros Hem; rewrite Hem in Heff;
    try exact Heff.
  - destruct Heff as [Hle [s' [Hpop ->]]]. unfold pop_back in Hpop.
    destruct (column_indices s); [discriminate |].
    split; [exact Hle |]. split; [discriminate | now symmetry].
  - intros s' Hafter. destruct Heff as [Hs | Hs]; congruence.
Qed.

Lemma scan_token_tells_stack_change_witness :
  scanner_after (scan {| column_indices := [2; 5] |} (line 1 [65]) all_valid)
  = Some {| column_indices := [2] |}.
Proof.
  apply (scan_token_tells_stack_change {| column_indices := [2; 5] |}
           (line 1 [65]) all_valid).
  reflexivity.
Defined.

Lemma handle_land_token_asserts (s : Scanner) (lexer : TSLexer)
    (valid_symbols : TokenType -> bool) (next : column_index) :
  handle_land_token s lexer valid_symbols next = AssertionFailed
  <-> (next = get_current_jlist_column_index s
       /\ valid_symbols NEWLINE = false)
      \/ (next < get_current_jlist_column_index s
          /\ valid_symbols DEDENT = false).
Proof.
  unfold handle_land_token.
  destruct (Z.ltb_spec (get_current_jlist_column_index s) next).
  - destruct (valid_symbols INDENT); (split; [discriminate | lia]).
  - destruct (Z.eqb_spec (get_current_jlist_column_index s) next).
    + destruct (valid_symbols NEWLINE).
      * split; [discriminate |]. intros [[_ ?] | [? _]]; [discriminate | lia].
      * split; [auto | reflexivity].
    + destruct (valid_symbols DEDENT).
      * destruct (pop_back s);
          (split; [discriminate |]; intros [[? _] | [_ ?]];
           [congruence | discriminate]).
      * split; [intros _; right; split; [lia | reflexivity] | reflexivity].
Qed.

Lemma handle_non_land_token_asserts (s : Scanner) (lexer : TSLexer)
    (valid_symbols : TokenType -> bool) (next : column_index) :
  handle_non_land_token s lexer valid_symbols next = AssertionFailed
  <-> next <= get_current_jlist_column_index s
      /\ valid_symbols DEDENT = false.
Proof.
  unfold handle_non_land_token.
  destruct (Z.leb_spec next (get_current_jlist_column_index s)).
  - destruct (valid_symbols DEDENT).
    + destruct (pop_back s);
        (split; [discriminate | intros [_ ?]; discriminate]).
    + split; [auto | reflexivity].
  - split; [discriminate | lia].
Qed.

Lemma land_case_not_default (first : TSLexer) :
  takes_land_case first = true -> takes_default_case first = false.
Proof.
  unfold takes_land_case, takes_default_case, next_codepoint, lookahead.
  destruct (input first) as [| c rest]; [discriminate |].
  destruct (c =? LAND_CASE_LABEL); [now rewrite andb_false_r |].
  destruct (c =? SLASH); [now rewrite andb_false_r | discriminate].
Qed.

(** X11 (contract by assertion): a call that passes the gate stops at an
    assertion exactly when it runs the connective case (a slash followed by
    a backslash, or a code point equal to the case label) at the current
    column without item-separator legal, or runs the connective case left
    of the current column, or the default case (any other code point but a
    slash, the sign U+2227 included) at or left of it, without list-close
    legal. *)
Theorem scan_asserts_iff_oracle_mismatch (s : Scanner) (lexer : TSLexer)
    (valid_symbols : TokenType -> bool) :
  some_legal valid_symbols ->
  (scan s lexer valid_symbols = AssertionFailed
   <-> oracle_mismatch s lexer valid_symbols).
Proof.
  intros Hgate. unfold oracle_mismatch.
  destruct (scan_cases s lexer valid_symbols Hgate)
    as [[Hnext ->] | [[Hland ->] | [[Hslash [Hland ->]] | [Hdefault ->]]]].
  - split; [discriminate |].
    intros [[Hland _] | [[Hland _] | [Hdefault _]]].
    + apply takes_land_case_has_next in Hland. congruence.
    + apply takes_land_case_has_next in Hland. congruence.
    + apply takes_default_case_inv in Hdefault as [Hn _]. congruence.
  - rewrite handle_land_token_asserts. split.
    + intros [[? ?] | [? ?]]; [left | right; left]; auto.
    + intros [[_ [? ?]] | [[_ [? ?]] | [Hdefault _]]]; [auto | auto |].
      apply land_case_not_default in Hland. congruence.
  - split; [discriminate |].
    intros [[Hland' _] | [[Hland' _] | [Hdefault _]]];
      [congruence | congruence |].
    apply takes_default_case_inv in Hdefault as [_ [_ Hne]]. contradiction.
  - rewrite handle_non_land_token_asserts. split.
    + intros [? ?]. right; right. auto.
    + intros [[Hland _] | [[Hland _] | [_ [? ?]]]]; [| | auto];
        apply land_case_not_default in Hland; congruence.
Qed.

Lemma scan_asserts_iff_oracle_mismatch_witness :
  scan {| column_indices := [2] |} (line 2 [SLASH; BACKSLASH]) (only INDENT)
  = AssertionFailed.
Proof.
  apply (scan_asserts_iff_oracle_mismatch {| column_indices := [2] |}
           (line 2 [SLASH; BACKSLASH]) (only INDENT)).
  - left; reflexivity.
  - left. repeat split.
Defined.

Lemma handle_land_token_pops_empty (s : Scanner) (lexer : TSLexer)
    (valid_symbols : TokenType -> bool) (next : column_index) :
  handle_land_token s lexer valid_symbols next = PopBackEmpty ->
  column_indices s = [] /\ next < 0.
Proof.
  unfold handle_land_token, get_current_jlist_column_index, pop_back.
  destruct (column_indices s) as [| a v].
  - destruct (Z.ltb_spec (-1) next);
      [destruct (valid_symbols INDENT); discriminate |].
    intros _. split; [reflexivity | lia].
  - destruct (_ <? next); [destruct (valid_symbols INDENT); discriminate |].
    destruct (_ =? next); [destruct (valid_symbols NEWLINE); discriminate |].
    destruct (valid_symbols DEDENT); discriminate.
Qed.

Lemma handle_non_land_token_pops_empty (s : Scanner) (lexer : TSLexer)
    (valid_symbols : TokenType -> bool) (next : column_index) :
  handle_non_land_token s lexer valid_symbols next = PopBackEmpty ->
  column_indices s = [] /\ next < 0.
Proof.
  unfold handle_non_land_token, get_current_jlist_column_index, pop_back.
  destruct (column_indices s) as [| a v].
  - destruct (Z.leb_spec next (-1)); [| discriminate].
    intros _. split; [reflexivity | lia].
  - destruct (next <=? _); [| discriminate].
    destruct (valid_symbols DEDENT); discriminate.
Qed.

(** X12: a call pops an empty vector only on the empty stack and only for
    a token whose measured column is negative, which no host column below
    2^15 gives; for such columns [scan] never pops an empty vector. *)
Theorem scan_pops_empty_only_beyond_range (s : Scanner) (lexer : TSLexer)
    (valid_symbols : TokenType -> bool) :
  scan s lexer valid_symbols = PopBackEmpty ->
  column_indices s = []
  /\ token_column lexer < 0
  /\ ~ (0 <= get_column (at_token lexer) < 32768).
Proof.
  intros Hscan.
  assert (column_indices s = [] /\ token_column lexer < 0) as [Hnil Hneg].
  { destruct (valid_symbols INDENT || valid_symbols NEWLINE
              || valid_symbols DEDENT) eqn:Hgate.
    - destruct (scan_cases s lexer valid_symbols (gate_some_legal _ Hgate))
        as [[_ Heq] | [[_ Heq] | [[_ [_ Heq]] | [_ Heq]]]];
        rewrite Heq in Hscan; try discriminate.
      + now apply handle_land_token_pops_empty in Hscan.
      + now apply handle_non_land_token_pops_empty in Hscan.
    - unfold scan in Hscan. rewrite Hgate in Hscan. discriminate. }
  repeat split; try assumption.
  intros Hrange. rewrite (token_column_in_range lexer Hrange) in Hneg. lia.
Qed.

Lemma scan_pops_empty_only_beyond_range_witness :
  token_column
    {| input := [65]; column := 40000; position := 40000;
       token_start := 0; token_end := None; result_symbol := None |} < 0.
Proof.
  apply (scan_pops_empty_only_beyond_range create
           {| input := [65]; column := 40000; position := 40000;
              token_start := 0; token_end := None; result_symbol := None |}
           all_valid).
  reflexivity.
Defined.

(** X13: on the empty stack, with list-close legal, a token that is not
    the connective and does not start with a slash, and whose measured
    column is negative (a host column from 2^15 on, wrapped by the
    conversion to [column_index]), makes [scan] pop the empty vector. *)
Theorem scan_pops_empty_on_wrapped_column (s : Scanner) (lexer : TSLexer)
    (valid_symbols : TokenType -> bool) (c : column_index) :
  column_indices s = [] ->
  other_at lexer c ->
  next_codepoint (at_token lexer) <> SLASH ->
  c < 0 ->
  legal valid_symbols DEDENT ->
  scan s lexer valid_symbols = PopBackEmpty.
Proof.
  intros Hnil [Hother <-] Hslash Hneg Hdedent.
  rewrite scan_other; try assumption.
  - unfold handle_non_land_token, get_current_jlist_column_index, pop_back.
    rewrite Hnil.
    destruct (Z.leb_spec (token_column lexer) (-1)); [| lia].
    now rewrite Hdedent.
  - right; right; exact Hdedent.
  - now apply spells_other_has_next.
  - now apply spells_other_not_label.
Qed.

Lemma scan_pops_empty_on_wrapped_column_witness :
  scan create
    {| input := [65]; column := 40000; position := 40000;
       token_start := 0; token_end := None; result_symbol := None |}
    all_valid
  = PopBackEmpty.
Proof.
  apply (scan_pops_empty_on_wrapped_column create
           {| input := [65]; column := 40000; position := 40000;
              token_start := 0; token_end := None; result_symbol := None |}
           all_valid (-25536)).
  - reflexivity.
  - split; reflexivity.
  - discriminate.
  - lia.
  - reflexivity.
Defined.

(** X14: a slash that is not followed by a backslash is declined at every
    column and on every stack: the call returns [false] with the stack
    unchanged, having marked the token end in front of the slash and
    consumed the slash. *)
Theorem slash_without_backslash_declined (s : Scanner) (lexer : TSLexer)
    (valid_symbols : TokenType -> bool) :
  some_legal valid_symbols ->
  next_codepoint (at_token lexer) = SLASH ->
  spells_land (at_token lexer) = false ->
  exists lexer',
    scan s lexer valid_symbols = Returned false s lexer'
    /\ position lexer' = position (at_token lexer) + 1
    /\ token_end lexer' = Some (position (at_token lexer))
    /\ result_symbol lexer' = result_symbol lexer.
Proof.
  intros Hgate Hslash Hland.
  exists (advance (mark_end (at_token lexer))). split.
  - unfold scan.
    rewrite (some_legal_gate _ Hgate), scan_loop_at_token.
    assert (has_next (at_token lexer) = true) as ->
      by (unfold has_next, next_codepoint_is; now rewrite Hslash).
    apply scan_token_slash; [exact Hslash |].
    now rewrite slash_spells_land_iff_case.
  - destruct (skip_spaces_token_end (input lexer) lexer eq_refl) as [_ Hres].
    fold (at_token lexer) in Hres. rewrite <- Hres.
    unfold next_codepoint, lookahead in Hslash.
    unfold advance, lexer_advance, mark_end. cbn [input].
    destruct (input (at_token lexer)); [discriminate |].
    repeat split.
Qed.

Lemma slash_without_backslash_declined_witness :
  exists lexer',
    scan {| column_indices := [5] |} (line 2 [SLASH; 61]) all_valid
    = Returned false {| column_indices := [5] |} lexer'
    /\ position lexer' = 3.
Proof.
  destruct (slash_without_backslash_declined {| column_indices := [5] |}
              (line 2 [SLASH; 61]) all_valid)
    as [lexer' [Hscan [Hpos _]]]; try reflexivity.
  - left; reflexivity.
  - exists lexer'. split; [exact Hscan | exact Hpos].
Defined.

Lemma declined_beyond_current (s : Scanner) (lexer : TSLexer)
    (valid_symbols : TokenType -> bool) :
  some_legal valid_symbols ->
  spells_other (at_token lexer) = true ->
  next_codepoint (at_token lexer) <> SLASH ->
  get_current_jlist_column_index s < token_column lexer ->
  scan s lexer valid_symbols = Returned false s (at_token lexer).
Proof.
  intros Hgate Hother Hslash Hlt.
  rewrite scan_other; try assumption.
  - unfold handle_non_land_token.
    destruct (Z.leb_spec (token_column lexer)
                (get_current_jlist_column_index s)); [lia | reflexivity].
  - now apply spells_other_has_next.
  - now apply spells_other_not_label.
Qed.

(** X15: a token that is not the connective and stands beyond the current
    column is left to the host: the call returns [false] with the stack
    unchanged and the cursor at the token's first character, nothing but
    white space consumed. *)
Theorem other_token_beyond_current_declined (s : Scanner) (lexer : TSLexer)
    (valid_symbols : TokenType -> bool) (c : column_index) :
  some_legal valid_symbols ->
  other_at lexer c ->
  next_codepoint (at_token lexer) <> SLASH ->
  get_current_jlist_column_index s < c ->
  scan s lexer valid_symbols = Returned false s (at_token lexer).
Proof.
  intros Hgate [Hother <-] Hslash Hlt.
  now apply declined_beyond_current.
Qed.

Lemma other_token_beyond_current_declined_witness :
  scan {| column_indices := [2] |} (line 5 [69; 76]) all_valid
  = Returned false {| column_indices := [2] |} (at_token (line 5 [69; 76])).
Proof.
  apply (other_token_beyond_current_declined {| column_indices := [2] |}
           (line 5 [69; 76]) all_valid 5).
  - left; reflexivity.
  - split; reflexivity.
  - discriminate.
  - cbn. lia.
Defined.

Lemma handle_land_token_lexer (s : Scanner) (lexer lexer' : TSLexer)
    (valid_symbols : TokenType -> bool) (next : column_index) :
  lexer_after (handle_land_token s lexer valid_symbols next) = Some lexer' ->
  input lexer' = input lexer /\ position lexer' = position lexer
  /\ token_end lexer' = token_end lexer.
Proof.
  unfold handle_land_token.
  destruct (_ <? next).
  - destruct (valid_symbols INDENT); intros [= <-]; repeat split.
  - destruct (_ =? next).
    + destruct (valid_symbols NEWLINE); [| discriminate].
      intros [= <-]; repeat split.
    + destruct (valid_symbols DEDENT); [| discriminate].
      destruct (pop_back s); [| discriminate].
      intros [= <-]; repeat split.
Qed.

Lemma handle_non_land_token_lexer (s : Scanner) (lexer lexer' : TSLexer)
    (valid_symbols : TokenType -> bool) (next : column_index) :
  lexer_after (handle_non_land_token s lexer valid_symbols next)
  = Some lexer' ->
  input lexer' = input lexer /\ position lexer' = position lexer
  /\ token_end lexer' = token_end lexer.
Proof.
  unfold handle_non_land_token.
  destruct (next <=? _).
  - destruct (valid_symbols DEDENT); [| discriminate].
    destruct (pop_back s); [| discriminate].
    intros [= <-]; repeat split.
  - intros [= <-]; repeat split.
Qed.

(** X16 (zero-width token): whenever a call runs the connective case (a
    slash followed by a backslash, or a code point equal to the case label)
    and finishes, the token end is marked in front of the first character;
    the cursor stands one character on, behind the slash, for the two
    characters, and where it was for the case label. The sign U+2227 does
    not run this case. *)
Theorem land_token_marked_at_first_character (s : Scanner) (lexer : TSLexer)
    (valid_symbols : TokenType -> bool) (lexer' : TSLexer) :
  some_legal valid_symbols ->
  takes_land_case (at_token lexer) = true ->
  lexer_after (scan s lexer valid_symbols) = Some lexer' ->
  token_end lexer' = Some (position (at_token lexer))
  /\ position lexer'
     = position (at_token lexer)
       + (if next_codepoint (at_token lexer) =? SLASH then 1 else 0).
Proof.
  intros Hgate Hland Hafter.
  rewrite scan_land in Hafter by assumption.
  apply handle_land_token_lexer in Hafter as [_ [-> ->]].
  unfold land_cursor, takes_land_case, next_codepoint, lookahead in *.
  destruct (input (at_token lexer)) as [| c rest] eqn:Hin; [discriminate |].
  destruct (Z.eqb_spec c LAND_CASE_LABEL) as [-> | Hlabel].
  - split; [reflexivity | cbn [mark_end position Z.eqb]].
    change (LAND_CASE_LABEL =? SLASH) with false. cbv iota. lia.
  - cbn [orb] in Hland. apply andb_true_iff in Hland as [Hslash _].
    rewrite Hslash.
    unfold advance, lexer_advance, mark_end. cbn [input]. rewrite Hin.
    split; reflexivity.
Qed.

Lemma land_token_marked_at_first_character_witness :
  token_end
    (set_result_symbol
       (land_cursor (at_token (line 2 [SLASH; BACKSLASH]))) INDENT)
  = Some 2.
Proof.
  apply (land_token_marked_at_first_character create
           (line 2 [SLASH; BACKSLASH]) (only INDENT)).
  - left; reflexivity.
  - reflexivity.
  - reflexivity.
Defined.

(** X17 (zero-consumption lookahead): for a token that is not the
    connective and does not start with a slash, a call that finishes has
    consumed the white space in front of the token and nothing of the
    token, and has not moved the token end mark. *)
Theorem other_token_not_consumed (s : Scanner) (lexer : TSLexer)
    (valid_symbols : TokenType -> bool) (lexer' : TSLexer) :
  some_legal valid_symbols ->
  spells_other (at_token lexer) = true ->
  next_codepoint (at_token lexer) <> SLASH ->
  lexer_after (scan s lexer valid_symbols) = Some lexer' ->
  input lexer' = input (at_token lexer)
  /\ position lexer' = position (at_token lexer)
  /\ token_end lexer' = token_end lexer.
Proof.
  intros Hgate Hother Hslash Hafter.
  rewrite scan_other in Hafter; try assumption.
  - apply handle_non_land_token_lexer in Hafter as [-> [-> ->]].
    repeat split.
    now destruct (skip_spaces_token_end (input lexer) lexer eq_refl).
  - now apply spells_other_has_next.
  - now apply spells_other_not_label.
Qed.

Lemma other_token_not_consumed_witness :
  input (set_result_symbol (at_token (line 1 [65; 66])) DEDENT) = [65; 66].
Proof.
  apply (other_token_not_consumed {| column_indices := [2] |}
           (line 1 [65; 66]) all_valid).
  - left; reflexivity.
  - reflexivity.
  - discriminate.
  - reflexivity.
Defined.

(** ** Reachable stacks *)

Lemma scan_keeps_int16 (s s' : Scanner) (lexer : TSLexer)
    (valid_symbols : TokenType -> bool) :
  Forall int16_range (column_indices s) ->
  scanner_after (scan s lexer valid_symbols) = Some s' ->
  Forall int16_range (column_indices s').
Proof.
  intros Hall Hafter.
  pose proof (proj1 (scan_effect s lexer valid_symbols)) as Heff.
  unfold token_effect in Heff.
  destruct (emitted (scan s lexer valid_symbols)) as [[| |] |].
  - destruct Heff as [_ Hpush]. rewrite Hpush in Hafter.
    injection Hafter as <-. unfold push_back. cbn [column_indices].
    apply Forall_app. split; [exact Hall |].
    constructor; [apply to_int16_range | constructor].
  - destruct Heff as [_ Hsame]. congruence.
  - destruct Heff as [_ [popped [Hpop Hpopped]]].
    assert (popped = s') as <- by congruence.
    unfold pop_back in Hpop.
    destruct (column_indices s) as [| a v] eqn:Hv; [discriminate |].
    injection Hpop as <-. cbn [column_indices].
    destruct (exists_last (l := a :: v)) as [front [top Heq]];
      [discriminate |].
    change (Forall int16_range (removelast (a :: v))).
    rewrite Heq, removelast_last. rewrite Heq in Hall.
    now apply Forall_app in Hall.
  - destruct Heff as [Hsame | Hnone]; congruence.
Qed.

Lemma reachable_int16 (s : Scanner) :
  reachable s -> Forall int16_range (column_indices s).
Proof.
  induction 1 as [| s lexer valid_symbols s' _ IH Hafter].
  - constructor.
  - eapply scan_keeps_int16; eassumption.
Qed.

Lemma increasing_head_least (b : column_index) (w : list column_index) :
  increasing (b :: w) = true -> Forall (fun c => b < c) w.
Proof.
  revert b. induction w as [| a w IH]; intros b Hinc; [constructor |].
  cbn [increasing] in Hinc. apply andb_true_iff in Hinc as [Hba Hrest].
  apply Z.ltb_lt in Hba. constructor; [exact Hba |].
  apply IH in Hrest. eapply Forall_impl; [| exact Hrest].
  cbn. intros c Hc. lia.
Qed.

Lemma increasing_tail (a : column_index) (v : list column_index) :
  increasing (a :: v) = true -> increasing v = true.
Proof.
  destruct v as [| b v]; [reflexivity |].
  cbn [increasing]. intros H. now apply andb_true_iff in H.
Qed.

Lemma increasing_length_bound (hi : Z) (v : list column_index) :
  forall lo,
    increasing v = true ->
    Forall (fun c => lo <= c <= hi) v ->
    v = [] \/ Z.of_nat (length v) <= hi - lo + 1.
Proof.
  induction v as [| a v IH]; intros lo Hinc Hall; [left; reflexivity |].
  right. inversion Hall as [| ? ? Ha Hrest]; subst.
  pose proof (increasing_head_least a v Hinc) as Hleast.
  destruct (IH (a + 1) (increasing_tail a v Hinc)) as [-> | Hlen].
  - rewrite Forall_forall in *. intros c Hc.
    specialize (Hrest c Hc). specialize (Hleast c Hc). cbn in Hleast. lia.
  - cbn [length]. lia.
  - cbn [length]. lia.
Qed.

(** X18: every stack reached from the empty one by calls of [scan] holds
    only columns from 0 to 32767, and so, increasing strictly, is at most
    32768 deep. *)
Theorem reachable_columns_and_depth (s : Scanner) :
  reachable s ->
  Forall (fun c => 0 <= c <= 32767) (column_indices s)
  /\ Z.of_nat (length (column_indices s)) <= 32768.
Proof.
  intros Hreach.
  assert (Forall (fun c => 0 <= c <= 32767) (column_indices s)) as Hall.
  { pose proof (reachable_nonneg s Hreach) as Hpos.
    pose proof (reachable_int16 s Hreach) as Hint.
    rewrite Forall_forall in *. intros c Hc.
    specialize (Hpos c Hc). specialize (Hint c Hc).
    unfold int16_range in Hint. lia. }
  split; [exact Hall |].
  assert (increasing (column_indices s) = true) as Hinc.
  { clear Hall.
    induction Hreach as [| s lexer valid_symbols s' _ IH Hafter];
      [reflexivity |].
    eapply stack_step_increasing; [eapply scan_step, Hafter | exact IH]. }
  destruct (increasing_length_bound 32767 (column_indices s) 0 Hinc Hall)
    as [-> | Hlen]; [cbn; lia | lia].
Qed.

Lemma reachable_columns_and_depth_witness :
  Forall (fun c => 0 <= c <= 32767) [2]
  /\ Z.of_nat (length [2]) <= 32768.
Proof.
  apply (reachable_columns_and_depth {| column_indices := [2] |}).
  apply (reachable_scan create (line 2 [SLASH; BACKSLASH]) (only INDENT));
    [constructor | reflexivity].
Defined.

Lemma skip_spaces_indent (n : nat) (text : list Z) (lexer : TSLexer) :
  input lexer = repeat SPACE n ++ text ->
  match text with c :: _ => is_space c = false | [] => True end ->
  input (skip_spaces (input lexer) lexer) = text
  /\ column (skip_spaces (input lexer) lexer) = column lexer + Z.of_nat n.
Proof.
  revert lexer. induction n as [| n IH]; intros lexer Hin Htext.
  - cbn [repeat app] in Hin. rewrite Hin.
    destruct text as [| c text]; cbn [skip_spaces].
    + rewrite Hin. split; [reflexivity | lia].
    + rewrite Htext, Hin. split; [reflexivity | lia].
  - cbn [repeat app] in Hin. rewrite Hin. cbn [skip_spaces].
    change (is_space SPACE) with true. cbv iota.
    assert (input (skip lexer) = repeat SPACE n ++ text
            /\ column (skip lexer) = column lexer + 1) as [Hi Hc]
      by (unfold skip, lexer_advance; rewrite Hin; split; reflexivity).
    destruct (IH (skip lexer) Hi Htext) as [H1 H2].
    rewrite Hi in H1, H2. rewrite H1, H2, Hc. split; [reflexivity | lia].
Qed.

Lemma ramp_succ (n : nat) : ramp (S n) = push_back (ramp n) (Z.of_nat n).
Proof.
  unfold ramp, push_back. cbn [column_indices].
  now rewrite seq_S, map_app.
Qed.

Lemma current_ramp (n : nat) :
  get_current_jlist_column_index (ramp n) < Z.of_nat n.
Proof.
  destruct n as [| n]; [reflexivity |].
  rewrite ramp_succ, current_push_back. lia.
Qed.

Lemma reachable_ramp (n : nat) : Z.of_nat n <= 32768 -> reachable (ramp n).
Proof.
  induction n as [| n IH]; intros Hn; [constructor |].
  apply (reachable_scan (ramp n) (line n [SLASH; BACKSLASH]) (only INDENT));
    [apply IH; lia |].
  destruct (skip_spaces_indent n [SLASH; BACKSLASH]
              (line n [SLASH; BACKSLASH]) eq_refl eq_refl)
    as [Hin Hcol].
  fold (at_token (line n [SLASH; BACKSLASH])) in Hin, Hcol.
  assert (token_column (line n [SLASH; BACKSLASH]) = Z.of_nat n) as Htok.
  { unfold token_column, get_column. rewrite Hcol. cbn [line column].
    apply to_int16_id. unfold int16_range. lia. }
  rewrite scan_land.
  - rewrite handle_land_token_open, Htok.
    + cbn [scanner_after]. now rewrite ramp_succ.
    + rewrite Htok. apply current_ramp.
    + reflexivity.
  - left; reflexivity.
  - unfold takes_land_case. now rewrite Hin.
Qed.

(** X19 (no capacity check on push): [scan] pushes without looking at the
    depth, so stacks deeper than 255 are reached from the empty stack, for
    instance by connectives (slash, backslash) at columns 0, 1, ..., n - 1
    for any n from 256 to 32768, and on these [serialize] stops at its
    assertion. *)
Theorem deep_stack_reachable_and_not_serializable (order : ByteOrder)
    (buffer : list Z) (n : nat) :
  255 < Z.of_nat n <= 32768 ->
  reachable (ramp n)
  /\ length (column_indices (ramp n)) = n
  /\ serialize order (ramp n) buffer = AssertFailed.
Proof.
  intros [Hdeep Hcap].
  assert (length (column_indices (ramp n)) = n) as Hlen
    by (unfold ramp; cbn [column_indices]; now rewrite length_map, length_seq).
  split; [now apply reachable_ramp |]. split; [exact Hlen |].
  unfold serialize. rewrite Hlen.
  destruct (Z.leb_spec (Z.of_nat n) UINT8_MAX) as [Hle | _];
    [unfold UINT8_MAX in Hle; lia | reflexivity].
Qed.

Lemma deep_stack_reachable_and_not_serializable_witness :
  reachable (ramp 256)
  /\ length (column_indices (ramp 256)) = 256%nat
  /\ serialize LittleEndian (ramp 256) (repeat 0 1024) = AssertFailed.
Proof.
  apply (deep_stack_reachable_and_not_serializable LittleEndian
           (repeat 0 1024) 256).
  lia.
Defined.

(** X20: [next_codepoint_is_one_of] answers [true] exactly when the next
    code point is among the given ones; for the empty list it answers
    [false]. *)
Theorem next_codepoint_is_one_of_iff (lexer : TSLexer) (tokens : list Z) :
  next_codepoint_is_one_of lexer tokens = true
  <-> In (next_codepoint lexer) tokens.
Proof.
  unfold next_codepoint_is_one_of, next_codepoint_is.
  rewrite existsb_exists. split.
  - intros [t [Hin Heq]]. apply Z.eqb_eq in Heq. now subst.
  - intros Hin. exists (next_codepoint lexer). split; [exact Hin |].
    apply Z.eqb_refl.
Qed.

Lemma next_codepoint_is_one_of_iff_witness :
  next_codepoint_is_one_of (line 0 [TAB; 65]) [SPACE; TAB; LF; CR] = true.
Proof.
  apply (next_codepoint_is_one_of_iff (line 0 [TAB; 65]) [SPACE; TAB; LF; CR]).
  right; left; reflexivity.
Defined.

(** ** Calls in sequence *)

Lemma scan_close_other (s : Scanner) (lexer : TSLexer)
    (valid_symbols : TokenType -> bool) :
  column_indices s <> [] ->
  spells_other (at_token lexer) = true ->
  next_codepoint (at_token lexer) <> SLASH ->
  token_column lexer <= get_current_jlist_column_index s ->
  legal valid_symbols DEDENT ->
  scan s lexer valid_symbols
  = Returned true {| column_indices := removelast (column_indices s) |}
      (set_result_symbol (at_token lexer) DEDENT).
Proof.
  intros Hne Hother Hslash Hle Hdedent.
  rewrite scan_other; try assumption.
  - now apply handle_non_land_token_close.
  - right; right; exact Hdedent.
  - now apply spells_other_has_next.
  - now apply spells_other_not_label.
Qed.

(** X21: opening a list and closing it again gives back the stack the
    scanner started from: a call that runs the connective case (slash and
    backslash) at a column [c] beyond the current one with list-open legal,
    followed by a call that finds another token at or left of [c] with
    list-close legal, hands out list-open and list-close and leaves the
    stack as it was before the two calls. *)
Theorem open_then_close_restores (s : Scanner) (lexer1 lexer2 : TSLexer)
    (valid1 valid2 : TokenType -> bool) (c c2 : column_index) :
  legal valid1 INDENT ->
  land_case_at lexer1 c ->
  get_current_jlist_column_index s < c ->
  legal valid2 DEDENT ->
  other_at lexer2 c2 ->
  next_codepoint (at_token lexer2) <> SLASH ->
  c2 <= c ->
  scan_all s [(lexer1, valid1); (lexer2, valid2)]
  = Some ([Some INDENT; Some DEDENT], s).
Proof.
  intros Hindent [Hland <-] Hlt Hdedent [Hother <-] Hslash Hle.
  cbn [scan_all].
  rewrite scan_land by (try assumption; left; exact Hindent).
  rewrite handle_land_token_open by assumption.
  cbn [scanner_after emitted result_symbol set_result_symbol].
  rewrite scan_close_other; try assumption.
  - cbn [scanner_after emitted result_symbol set_result_symbol].
    unfold push_back. cbn [column_indices]. rewrite removelast_last.
    now destruct s.
  - unfold push_back. cbn [column_indices].
    now destruct (column_indices s).
  - now rewrite current_push_back.
Qed.

Lemma open_then_close_restores_witness :
  scan_all {| column_indices := [2] |}
    [(line 5 [SLASH; BACKSLASH; 32; 65], only INDENT);
     (line 3 [66], only DEDENT)]
  = Some ([Some INDENT; Some DEDENT], {| column_indices := [2] |}).
Proof.
  apply (open_then_close_restores {| column_indices := [2] |}
           (line 5 [SLASH; BACKSLASH; 32; 65]) (line 3 [66])
           (only INDENT) (only DEDENT) 5 3).
  - reflexivity.
  - split; reflexivity.
  - cbn. lia.
  - reflexivity.
  - split; reflexivity.
  - discriminate.
  - lia.
Defined.

(** X22 (unwinding takes one call per level): with list-close legal, a
    token that is not the connective, does not start with a slash and
    stands at or left of every open list closes the whole stack in exactly
    as many calls as the stack is deep, one list-close per call; one call
    more, at a column that is not negative, is declined on the empty
    stack. *)
Theorem repeated_calls_unwind (lexer : TSLexer)
    (valid_symbols : TokenType -> bool) (c : column_index)
    (v : list column_index) :
  legal valid_symbols DEDENT ->
  other_at lexer c ->
  next_codepoint (at_token lexer) <> SLASH ->
  Forall (fun a => c <= a) v ->
  scan_all {| column_indices := v |}
    (repeat (lexer, valid_symbols) (length v))
  = Some (repeat (Some DEDENT) (length v), create)
  /\ (0 <= c ->
      scan create lexer valid_symbols = Returned false create (at_token lexer)).
Proof.
  intros Hdedent [Hother <-] Hslash Hall. split.
  - induction v as [| top front IH] using rev_ind; [reflexivity |].
    apply Forall_app in Hall as [Hfront Htop].
    inversion Htop as [| ? ? Hle _]; subst.
    rewrite length_app. cbn [length].
    replace (length front + 1)%nat with (S (length front)) by lia.
    cbn [repeat scan_all].
    rewrite scan_close_other; try assumption.
    + cbn [scanner_after emitted result_symbol set_result_symbol
             column_indices].
      rewrite removelast_last, (IH Hfront). reflexivity.
    + cbn [column_indices]. now destruct front.
    + change {| column_indices := front ++ [top] |}
        with (push_back {| column_indices := front |} top).
      now rewrite current_push_back.
  - intros Hpos.
    apply (declined_beyond_current create lexer valid_symbols);
      try assumption.
    + right; right; exact Hdedent.
    + cbn. lia.
Qed.

Lemma repeated_calls_unwind_witness :
  scan_all {| column_indices := [2; 5; 9] |}
    (repeat (line 1 [65], only DEDENT) 3)
  = Some (repeat (Some DEDENT) 3, create).
Proof.
  apply (repeated_calls_unwind (line 1 [65]) (only DEDENT) 1 [2; 5; 9]).
  - reflexivity.
  - split; reflexivity.
  - discriminate.
  - repeat constructor; lia.
Defined.
